(** * The statistical core of quocmesh: aol::RandomGenerator and
      aol::ProbDistributionFunction*

    A shallow embedding of
      - modules/aol/randomGenerator.h          (class RandomGenerator)
      - modules/aol/probDistributionFunction.h (the distribution classes and
                                                PRNGForGivenDistr1D)
    and the properties of these that the specification states.

    The numeric classes are templates over [RealType]; the embedding is
    generic over a class [RealType] of the operations the templates use, with
    two instances: the real numbers (the arithmetic the specification speaks
    about) and IEEE binary64 (the C++ [double], executable). *)

From Stdlib Require Import ZArith QArith Reals Floats Bool List String Lia Lra.
Import ListNotations.

Local Open Scope Z_scope.

(* ------------------------------------------------------------------------- *)
(** ** Exceptions and the outcome of a call *)

(** The two exception classes the headers throw, and the specification's
    error kind PreconditionViolation for the operations whose bodies the
    headers only declare (it is thrown by no definition taken from the
    source). *)
Inductive exn : Type :=
| Exception (what : string)
| UnimplementedCodeException (what : string)
| PreconditionViolation.

(** What a call can do: return, throw, or still be inside one of the
    [do … while] / [while ( true )] loops when the loop budget of the model
    is used up. *)
Inductive outcome (X : Type) : Type :=
| Ret (x : X)
| Throw (e : exn)
| Diverge.

Arguments Ret {X} x.
Arguments Throw {X} e.
Arguments Diverge {X}.

(** A member function that reads and writes a state [S]. *)
Definition M (S X : Type) : Type := S -> outcome (X * S).

Definition ret {S X} (x : X) : M S X := fun s => Ret (x, s).

Definition throw {S X} (e : exn) : M S X := fun _ => Throw e.

Definition bind {S X Y} (m : M S X) (k : X -> M S Y) : M S Y :=
  fun s =>
    match m s with
    | Ret (x, s') => k x s'
    | Throw e => Throw e
    | Diverge => Diverge
    end.

Declare Scope monad_scope.
Delimit Scope monad_scope with monad.
Notation "x <- m ;; k" := (bind m (fun x => k))
  (at level 61, m at next level, right associativity) : monad_scope.
Notation "' pat <- m ;; k" := (bind m (fun x => match x with pat => k end))
  (at level 61, pat pattern, m at next level, right associativity) : monad_scope.
Local Open Scope monad_scope.

(** [do { x = body; } while ( again ( x ) );] with a budget of [fuel] rounds. *)
Fixpoint do_while {S X} (fuel : nat) (body : M S X) (again : X -> bool) : M S X :=
  match fuel with
  | O => fun _ => Diverge
  | Datatypes.S n =>
      x <- body ;;
      if again x then do_while n body again else ret x
  end.

(** [while ( true ) { body }], where [body] answers [Some v] for [return v]
    (or [break] with the value to return) and [None] for the next round. *)
Fixpoint forever {S X} (fuel : nat) (body : M S (option X)) : M S X :=
  match fuel with
  | O => fun _ => Diverge
  | Datatypes.S n =>
      r <- body ;;
      match r with
      | Some v => ret v
      | None => forever n body
      end
  end.

(* ------------------------------------------------------------------------- *)
(** ** The template parameter RealType *)

(** The operations the templates use on a [RealType] (instantiated with
    [double] in what follows, so that the [double] temporaries of
    [poissonrInt] and the [rReal<double>] of the integer samplers have the
    same type). [int] and [unsigned int] are [Z]: the samplers convert a
    value to an integer only after a range check has put it between two
    integers; poissonrInt converts its argument and its candidates after
    comparisons that a NaN passes ([Double.trunc] says what the conversion
    gives then); the counts of the histograms wrap around as
    [unsigned int] ([uint]). *)
Class RealType (A : Type) : Type := {
  num_zero : A;                  (* aol::NumberTrait<RealType>::zero *)
  num_one : A;                   (* aol::NumberTrait<RealType>::one *)
  num_lit : Q -> A;              (* a floating literal of the source text *)
  num_of_Z : Z -> A;             (* conversion of an int or unsigned int *)
  num_to_Z : A -> Z;             (* static_cast<int>: truncation toward zero *)
  num_add : A -> A -> A;
  num_sub : A -> A -> A;
  num_mul : A -> A -> A;
  num_div : A -> A -> A;
  num_opp : A -> A;
  num_ltb : A -> A -> bool;
  num_leb : A -> A -> bool;
  num_eqb : A -> A -> bool;
  num_sqrt : A -> A;             (* <cmath> *)
  num_log : A -> A;
  num_exp : A -> A
}.

Declare Scope num_scope.
Delimit Scope num_scope with num.
Notation "x + y" := (num_add x y) : num_scope.
Notation "x - y" := (num_sub x y) : num_scope.
Notation "x * y" := (num_mul x y) : num_scope.
Notation "x / y" := (num_div x y) : num_scope.
Notation "- x" := (num_opp x) : num_scope.
Notation "x <? y" := (num_ltb x y) : num_scope.
Notation "x <=? y" := (num_leb x y) : num_scope.
Notation "x >? y" := (num_ltb y x) : num_scope.
Notation "x >=? y" := (num_leb y x) : num_scope.
Notation "x =? y" := (num_eqb x y) : num_scope.

(** *** The real numbers *)

Module RealNumbers.

Definition ltb (x y : R) : bool := if Rlt_dec x y then true else false.
Definition leb (x y : R) : bool := if Rle_dec x y then true else false.
Definition eqb (x y : R) : bool := if Req_dec_T x y then true else false.

(** Truncation toward zero. *)
Definition trunc (x : R) : Z :=
  if Rle_dec 0 x then Int_part x else (- Int_part (- x))%Z.

#[global] Instance real : RealType R := {|
  num_zero := 0%R;
  num_one := 1%R;
  num_lit := Q2R;
  num_of_Z := IZR;
  num_to_Z := trunc;
  num_add := Rplus;
  num_sub := Rminus;
  num_mul := Rmult;
  num_div := Rdiv;
  num_opp := Ropp;
  num_ltb := ltb;
  num_leb := leb;
  num_eqb := eqb;
  num_sqrt := R_sqrt.sqrt;
  num_log := ln;
  num_exp := Rtrigo_def.exp
|}.

End RealNumbers.

(** *** IEEE binary64, the C++ double *)

Module Double.

Definition Z2SF (z : Z) : spec_float :=
  match z with
  | Z0 => S754_zero false
  | Zpos p => S754_finite false p 0
  | Zneg p => S754_finite true p 0
  end.

(** The binary64 number nearest to [n / d] (ties to even): what the compiler
    makes of a decimal literal. *)
Definition of_Q (q : Q) : float :=
  SF2Prim (SFdiv prec emax (Z2SF (Qnum q)) (S754_finite false (Qden q) 0)).

Definition of_Z (z : Z) : float := of_Q (inject_Z z).

(** Truncation toward zero of a finite number (and 0 for the others). *)
Definition trunc_finite (x : float) : Z :=
  match Prim2SF x with
  | S754_finite s m e =>
      let a := match e with
               | Z0 => Zpos m
               | Zpos k => Zpos m * 2 ^ Zpos k
               | Zneg k => Zpos m / 2 ^ Zpos k
               end in
      if s then - a else a
  | _ => 0
  end.

Definition INT_MIN : Z := - 2 ^ 31.

(** [static_cast<int>]: truncation toward zero. The conversion of a NaN or
    an infinity is undefined in C++; the conversion instruction of the
    x86-64 build (cvttsd2si) gives INT_MIN for them, and so does this
    function. poissonrInt converts its argument after two comparisons that a
    NaN passes. *)
Definition trunc (x : float) : Z :=
  match Prim2SF x with
  | S754_infinity _ | S754_nan => INT_MIN
  | _ => trunc_finite x
  end.

Definition ln2 : float := 0x1.62e42fefa39efp-1%float.

(** [exp] and [log] are not IEEE operations and the C standard does not fix
    their rounding; these two stand for the ones of the C library on the
    finite (for [log]: positive) arguments the code below calls them with:
    argument reduction by powers of two and a truncated series. They are
    within a few units in the last place of the C library's, not equal to
    them: a run on binary64 that goes through them can differ from the
    program's in the last places of a value, and in a comparison that these
    places decide. The properties below are proved for every [num_exp] and
    [num_log]. *)
Fixpoint exp_series (n : nat) (k : float) (r term acc : float) : float :=
  match n with
  | O => acc
  | S n' =>
      let term' := (term * r / k)%float in
      exp_series n' (k + 1)%float r term' (acc + term')%float
  end.

Definition exp (x : float) : float :=
  let k := trunc_finite (x / ln2 + (if PrimFloat.ltb x 0 then -0.5 else 0.5))%float in
  let r := (x - of_Z k * ln2)%float in
  let e := exp_series 20 1%float r 1%float 1%float in
  if Z.ltb k 0 then (e / of_Z (2 ^ (- k)))%float else (e * of_Z (2 ^ k))%float.

Fixpoint atanh_series (n : nat) (k : float) (t2 pow acc : float) : float :=
  match n with
  | O => acc
  | S n' =>
      let pow' := (pow * t2)%float in
      atanh_series n' (k + 2)%float t2 pow' (acc + pow' / k)%float
  end.

Definition log (x : float) : float :=
  let '(m, e) := FloatOps.Z.frexp x in
  (* x = m * 2^e with 1/2 <= m < 1; fold m into [sqrt 1/2, sqrt 2) *)
  let '(m, e) := if PrimFloat.ltb m 0x1.6a09e667f3bcdp-1%float
                 then ((2 * m)%float, e - 1) else (m, e) in
  let t := ((m - 1) / (m + 1))%float in
  (of_Z e * ln2 + 2 * atanh_series 20 3%float (t * t)%float t t)%float.

#[global] Instance double : RealType float := {|
  num_zero := 0%float;
  num_one := 1%float;
  num_lit := of_Q;
  num_of_Z := of_Z;
  num_to_Z := trunc;
  num_add := PrimFloat.add;
  num_sub := PrimFloat.sub;
  num_mul := PrimFloat.mul;
  num_div := PrimFloat.div;
  num_opp := PrimFloat.opp;
  num_ltb := PrimFloat.ltb;
  num_leb := PrimFloat.leb;
  num_eqb := PrimFloat.eqb;
  num_sqrt := PrimFloat.sqrt;
  num_log := log;
  num_exp := exp
|}.

End Double.

(* ------------------------------------------------------------------------- *)
(** ** class RandomGenerator: the samplers of randomGenerator.h *)

(** The header declares [unsigned int getNextRnd ( )] and defines the samplers
    on top of it. Its body is not part of the header: the samplers are
    embedded over an arbitrary generator state [G] and an arbitrary
    [getNextRnd] on it. *)
Section Samplers.

Context {A : Type} {RT : RealType A}.
Variable G : Type.
Variable getNextRnd : G -> Z * G.

Local Open Scope num_scope.

Definition nextRnd : M G Z := fun g => Ret (getNextRnd g).

(** check whether Value lies in [Min, Max) *)
Definition rangeCheck (Value Min Max : A) : bool :=
  (Value <? Max) && (Value >=? Min).

(** the same template at [int] and [unsigned int] *)
Definition rangeCheckZ (Value Min Max : Z) : bool :=
  (Value <? Max)%Z && (Value >=? Min)%Z.

(** The body of the loop of [rReal ( )]: the initialisers of one
    declaration are evaluated in order, [moresig] before [lesssig]. *)
Definition rReal_body : M G A :=
  let denom := num_of_Z 0xFFFFFFFF + num_one in
  hi <- nextRnd ;;
  let moresig := num_of_Z hi in
  lo <- nextRnd ;;
  let lesssig := num_of_Z lo / denom in
  ret ((moresig + lesssig) / denom).

(** get random RealType in the range [0, 1) *)
Definition rReal (fuel : nat) : M G A :=
  do_while fuel rReal_body
    (fun r => negb (rangeCheck r num_zero num_one)).

(** get random RealType in the range [0, max) *)
Definition rReal_max (fuel : nat) (max : A) : M G A :=
  do_while fuel (u <- rReal fuel ;; ret (max * u))
    (fun r => negb (rangeCheck r num_zero max)).

(** get random RealType in the range [min, max) *)
Definition rReal_min_max (fuel : nat) (min max : A) : M G A :=
  do_while fuel (u <- rReal fuel ;; ret (min + u * (max - min)))
    (fun r => negb (rangeCheck r min max)).

(** get random nonnegative unsigned integer *)
Definition rUnsignedInt : M G Z := nextRnd.

(** get random boolean *)
Definition rBool : M G bool :=
  w <- nextRnd ;; ret (Z.eqb (w mod 2) 1).

(** get random int in the range [0, max) *)
Definition rUnsignedInt_max (fuel : nat) (max : Z) : M G Z :=
  do_while fuel (x <- rReal_max fuel (num_of_Z max) ;; ret (num_to_Z x))
    (fun r => negb (rangeCheckZ r 0 max)).

(** get random int in the range [min, max) *)
Definition rUnsignedInt_min_max (fuel : nat) (min max : Z) : M G Z :=
  do_while fuel
    (x <- rReal_min_max fuel (num_of_Z min) (num_of_Z max) ;; ret (num_to_Z x))
    (fun r => negb (rangeCheckZ r min max)).

(** get random int in the range [0, max) *)
Definition rInt_max (fuel : nat) (max : Z) : M G Z :=
  do_while fuel (x <- rReal_max fuel (num_of_Z max) ;; ret (num_to_Z x))
    (fun r => negb (rangeCheckZ r 0 max)).

(** get random int in the range [min, max) *)
Definition rInt_min_max (fuel : nat) (min max : Z) : M G Z :=
  do_while fuel
    (x <- rReal_min_max fuel (num_of_Z min) (num_of_Z max) ;; ret (num_to_Z x))
    (fun r => negb (rangeCheckZ r min max)).

(** One round of the loop of [normalrReal]: [x1], [x2] and
    [w = x1 * x1 + x2 * x2]. *)
Definition normal_body (fuel : nat) : M G (A * A * A) :=
  x1 <- rReal_min_max fuel (num_of_Z (-1)) (num_of_Z 1) ;;
  x2 <- rReal_min_max fuel (num_of_Z (-1)) (num_of_Z 1) ;;
  ret (x1, x2, x1 * x1 + x2 * x2).

(** [while ( w >= 1 || w < 1E-30 )] *)
Definition normal_again (t : A * A * A) : bool :=
  let '(_, _, w) := t in (w >=? num_of_Z 1) || (w <? num_lit 1e-30).

(** What [normalrReal] makes of the pair it leaves the loop with. *)
Definition normal_value (mean stddev : A) (t : A * A * A) : A :=
  let '(x1, _, w) := t in
  let w := num_sqrt ((num_of_Z (-2) * num_log w) / w) in
  let x1 := x1 * w in
  x1 * stddev + mean.

(** get normally distributed RealType with specified mean and standard
    deviation *)
Definition normalrReal (fuel : nat) (mean stddev : A) : M G A :=
  t <- do_while fuel (normal_body fuel) normal_again ;;
  ret (normal_value mean stddev t).

End Samplers.

(* ------------------------------------------------------------------------- *)
(** ** LnFac and its function-local static table *)

Section LnFac.

Context {A : Type} {RT : RealType A}.

Local Open Scope num_scope.

Definition FAK_LEN : Z := 100.

(** [static double fac_table[FAK_LEN]; static int initialized = 0;]: one
    table for the whole process, shared by all generator instances. *)
Record LnFacStatic : Type := {
  fac_table : list A;
  initialized : bool
}.

(** Static storage is zero-initialised before the first call. *)
Definition LnFacStatic_init : LnFacStatic :=
  {| fac_table := repeat num_zero (Z.to_nat FAK_LEN); initialized := false |}.

(** [tbl[i] = v] on an array (no effect outside it, where C++ is undefined;
    the loop below stays inside). *)
Fixpoint array_set (tbl : list A) (i : nat) (v : A) : list A :=
  match tbl, i with
  | [], _ => []
  | _ :: t, O => v :: t
  | x :: t, S i' => x :: array_set t i' v
  end.

(** [for ( int i=1; i<FAK_LEN ; ++i ) { sum += log ( i ); fac_table[i] = sum; }]
    with [rounds] rounds left. *)
Fixpoint fill_fac_table (rounds : nat) (i : Z) (sum : A) (tbl : list A) : list A :=
  match rounds with
  | O => tbl
  | S rounds' =>
      if (i <? FAK_LEN)%Z then
        let sum := sum + num_log (num_of_Z i) in
        fill_fac_table rounds' (i + 1)%Z sum (array_set tbl (Z.to_nat i) sum)
      else tbl
  end.

Definition C0 : A := num_lit 0.918938533204672722.
Definition C1 : A := num_lit 1 / num_lit 12.
Definition C3 : A := - num_lit 1 / num_lit 360.

Definition LnFac (n : Z) : M LnFacStatic A :=
  if (n <? FAK_LEN)%Z then
    if (n <=? 1)%Z then
      if (n <? 0)%Z
      then throw (Exception "Negative parameter in LnFac function!")
      else ret (num_of_Z 0)
    else
      fun st =>
        let st :=
          if negb (initialized st) then
            (* double sum = fac_table[0] = 0.; *)
            let sum := num_lit 0 in
            let tbl := array_set (fac_table st) 0 sum in
            {| fac_table := fill_fac_table (Z.to_nat FAK_LEN) 1 sum tbl;
               initialized := true |}
          else st in
        Ret (nth (Z.to_nat n) (fac_table st) num_zero, st)
  else
    let r := num_lit 1 / num_of_Z n in
    (* not found in table. use Stirling approximation *)
    ret ((num_of_Z n + num_lit 0.5) * num_log (num_of_Z n) - num_of_Z n + C0
         + r * (C1 + r * r * C3)).

End LnFac.

Arguments LnFacStatic A : clear implicits.

(* ------------------------------------------------------------------------- *)
(** ** poissonrInt *)

Section Poisson.

Context {A : Type} {RT : RealType A}.
Variable G : Type.
Variable getNextRnd : G -> Z * G.

(** [aol::Sqr<RealType>], from aol.h, which is not among the sources. *)
Variable Sqr : A -> A.

Local Open Scope num_scope.

(** The state [poissonrInt] works on: the generator and the table of
    [LnFac]. *)
Definition on_gen {X} (m : M G X) : M (G * LnFacStatic A) X :=
  fun s =>
    match m (fst s) with
    | Ret (x, g') => Ret (x, (g', snd s))
    | Throw e => Throw e
    | Diverge => Diverge
    end.

Definition on_static {X} (m : M (LnFacStatic A) X) : M (G * LnFacStatic A) X :=
  fun s =>
    match m (snd s) with
    | Ret (x, t') => Ret (x, (fst s, t'))
    | Throw e => Throw e
    | Diverge => Diverge
    end.

Definition bound : Z := 130.

(** The inner loop of the direct simulation,
    [do { r -= f; if ( r <= 0 ) return x; x++; f *= Lambda; r *= x; }
     while ( x <= bound );]
    with [rounds] rounds left: [Some x] for [return x], [None] when the loop
    is left at its condition. *)
Fixpoint poisson_walk (rounds : nat) (Lambda r f : A) (x : Z) : option Z :=
  match rounds with
  | O => None
  | S rounds' =>
      let r := r - f in
      if r <=? num_of_Z 0 then Some x
      else
        let x := (x + 1)%Z in
        let f := f * Lambda in
        let r := r * num_of_Z x in
        if (x <=? bound)%Z then poisson_walk rounds' Lambda r f x else None
  end.

(** get Poisson distributed int with specified mean *)
Definition poissonrInt (fuel : nat) (Lambda : A) : M (G * LnFacStatic A) Z :=
  let SHAT1 := num_lit 2.943035529371538573 in    (* 8/e *)
  let SHAT2 := num_lit 0.8989161620588987408 in   (* 3-sqrt(12/e) *)
  if Lambda <? num_of_Z 17 then
    if Lambda <? num_lit 1e-6 then
      if Lambda <? num_of_Z 0 then
        throw (Exception "Mean value must be greater than or equal to zero!")
      else if Lambda =? num_of_Z 0 then ret 0%Z
      else
        let d := num_sqrt Lambda in
        u <- on_gen (rReal G getNextRnd fuel) ;;
        if u >=? d then ret 0%Z
        else
          u' <- on_gen (rReal G getNextRnd fuel) ;;
          let r := u' * d in
          if r >? Lambda * (num_lit 1 - Lambda) then ret 0%Z
          else if r >? num_lit 0.5 * Sqr Lambda * (num_lit 1 - Lambda) then ret 1%Z
          else ret 2%Z
    else
      let pois_f0 := num_exp (- Lambda) in
      forever fuel
        (r <- on_gen (rReal G getNextRnd fuel) ;;
         ret (poisson_walk (Z.to_nat (bound + 1)) Lambda r pois_f0 0))
  else
    if Lambda >? num_lit 2e9 then
      throw (Exception "Mean value is too large to generate random samples from it!")
    else
      let pois_a := Lambda + num_lit 0.5 in
      let mode := num_to_Z Lambda in
      let pois_g := num_log Lambda in
      lnfac_mode <- on_static (LnFac mode) ;;
      let pois_f0 := num_of_Z mode * pois_g - lnfac_mode in
      let pois_h := num_sqrt (SHAT1 * pois_a) + SHAT2 in
      let pois_bound := num_to_Z (pois_a + num_lit 6.0 * pois_h) in
      forever fuel
        (u <- on_gen (rReal G getNextRnd fuel) ;;
         if u =? num_of_Z 0 then ret None
         else
           u' <- on_gen (rReal G getNextRnd fuel) ;;
           let x := pois_a + pois_h * (u' - num_lit 0.5) / u in
           if (x <? num_of_Z 0) || (x >=? num_of_Z pois_bound) then ret None
           else
             let k := num_to_Z x in
             lnfac_k <- on_static (LnFac k) ;;
             let lf := num_of_Z k * pois_g - lnfac_k - pois_f0 in
             if lf >=? u * (num_lit 4.0 - u) - num_lit 3.0 then ret (Some k)
             else if u * (u - lf) >? num_lit 1.0 then ret None
             else if num_lit 2.0 * num_log u <=? lf then ret (Some k)
             else ret None).

End Poisson.

(* ------------------------------------------------------------------------- *)
(** ** A generator with its coming raw words written out *)

(** For running the samplers on given raw words: the state lists the words
    [getNextRnd] hands out next (and 0 ever after). The Mersenne twister is
    equidistributed in 623 dimensions: every run of up to 623 words of 32 bits
    comes up somewhere in its period, so each short list below is produced
    from some state of the RandomGenerator. *)
Module Scripted.

Definition G : Type := list Z.

Definition getNextRnd (g : G) : Z * G :=
  match g with
  | [] => (0, [])
  | w :: g' => (w, g')
  end.

End Scripted.

(* ------------------------------------------------------------------------- *)
(** ** class RandomGenerator: state, seeding, copying *)

(** [unsigned int _seed, _index; std::vector< unsigned int > _y;] *)
Record RandomGenerator : Type := {
  _seed : Z;
  _index : Z;
  _y : list Z
}.

Definition getSeed (g : RandomGenerator) : Z := _seed g.

(** The private copy constructor: [RandomGenerator ( const RandomGenerator& )]. *)
Definition RandomGenerator_copy (other : RandomGenerator) : outcome RandomGenerator :=
  Throw (UnimplementedCodeException
           "aol::RandomGenerator copy constructor not implemented yet").

(** The private [operator= ( const RandomGenerator& )] called on [this]. *)
Definition RandomGenerator_assign (other : RandomGenerator) : M RandomGenerator unit :=
  fun this =>
    Throw (UnimplementedCodeException
             "aol::RandomGenerator::operator= not implemented yet").

Section MersenneTwister.

(** The header declares [initializeY] and [getNextRnd]; their bodies
    (randomGenerator.cpp) are not among the sources. What the specification
    leaves open about them is a parameter here: the recurrence that fills
    the words from the seed, the twist of the 624 words, the tempering of
    one word. *)
Variable seed_words : Z -> list Z.
Variable twist : list Z -> list Z.
Variable temper : Z -> Z.

(** Modelled from the spec: initializeY, missing from the sources. "State
    initialization from a seed deterministically fills all 624 words via a
    linear recurrence over the seed value"; "Re-seeding replaces seed and
    forces full regeneration", that is, the next word is requested with
    index == 624. *)
Definition initializeY (g : RandomGenerator) : RandomGenerator :=
  {| _seed := _seed g; _index := 624; _y := seed_words (_seed g) |}.

(** Modelled from the spec: getNextRnd, missing from the sources. "when a
    word is requested with index == 624, the entire 624-word array is
    regenerated in one deterministic batch (twist) from the current array
    contents, and index resets to 0"; "nextWord returns tempered words in
    order". *)
Definition getNextRnd (g : RandomGenerator) : Z * RandomGenerator :=
  let g := if (_index g =? 624)%Z
           then {| _seed := _seed g; _index := 0; _y := twist (_y g) |}
           else g in
  (temper (nth (Z.to_nat (_index g)) (_y g) 0),
   {| _seed := _seed g; _index := _index g + 1; _y := _y g |}).

(** [explicit RandomGenerator ( const unsigned int seed ) :
     _seed ( seed ), _index ( 624 ), _y ( 624 ) { initializeY(); }] *)
Definition RandomGenerator_new (seed : Z) : RandomGenerator :=
  initializeY {| _seed := seed; _index := 624; _y := repeat 0 624 |}.

(** [void reSeed ( const unsigned int newSeed )] *)
Definition reSeed (newSeed : Z) (g : RandomGenerator) : RandomGenerator :=
  initializeY {| _seed := newSeed; _index := _index g; _y := _y g |}.

(** The next [n] raw words of a generator. *)
Fixpoint draws (n : nat) (g : RandomGenerator) : list Z :=
  match n with
  | O => []
  | S n' => let (w, g') := getNextRnd g in w :: draws n' g'
  end.

(** The generator objects of a program, by address, and a member function
    called on one of them. *)
Definition instances : Type := nat -> option RandomGenerator.

Definition call_on (this : nat) (f : RandomGenerator -> RandomGenerator)
    (h : instances) : instances :=
  fun a => if Nat.eqb a this then option_map f (h a) else h a.

End MersenneTwister.

(* ------------------------------------------------------------------------- *)
(** ** probDistributionFunction.h *)

Section ProbDistribution.

Context {A : Type} {RT : RealType A}.

Local Open Scope num_scope.

(** [std::map< RealType, RealType >]: the entries in ascending order of the
    keys, two keys being the same entry when neither is less than the
    other. *)
Definition std_map : Type := list (A * A).

(** [m.begin()], when there is an entry. *)
Definition map_begin (m : std_map) : option (A * A) :=
  match m with
  | [] => None
  | e :: _ => Some e
  end.

(** [m[k] = v] *)
Fixpoint map_assign (k v : A) (m : std_map) : std_map :=
  match m with
  | [] => [(k, v)]
  | (k', v') :: m' =>
      if k <? k' then (k, v) :: (k', v') :: m'
      else if k' <? k then (k', v') :: map_assign k v m'
      else (k', v) :: m'
  end.

Fixpoint map_find (k : A) (m : std_map) : option A :=
  match m with
  | [] => None
  | (k', v') :: m' =>
      if k <? k' then None
      else if k' <? k then map_find k m'
      else Some v'
  end.

(** Base class for probability distributions in 1D or 2D. The last field
    is not a member: it records whether computePDFdistTo has run on the
    object. *)
Record ProbDistributionFunctionAnyD : Type := {
  _nSamples : Z;
  _L2Dist : A;
  _LInfDist : A;
  _CvMDist : A;
  compared : bool
}.

Definition numSamples (p : ProbDistributionFunctionAnyD) : Z := _nSamples p.

(** unscaled L2 distance to another PDF (if it has been computed on a
    derived class) *)
Definition getL2Dist (p : ProbDistributionFunctionAnyD) : A := _L2Dist p.

(** unscaled L infinity (Kolmogorov-Smirnov) distance to another PDF (if it
    has been computed on a derived class) *)
Definition getLInfDist (p : ProbDistributionFunctionAnyD) : A := _LInfDist p.

Definition getKSDist (p : ProbDistributionFunctionAnyD) : A := _LInfDist p.

(** unscaled Cramer-von Mises (L2-type) distance to another PDF (if it has
    been computed on a derived class) *)
Definition getCvMDist (p : ProbDistributionFunctionAnyD) : A := _CvMDist p.

(** A call of one of these getters, as a call that could throw: the bodies
    are a single [return] of the member. *)
Definition call_getter (getter : ProbDistributionFunctionAnyD -> A)
    (p : ProbDistributionFunctionAnyD) : outcome A :=
  Ret (getter p).

(** Modelled from the spec: the sample-size factor of the scaled accessors,
    whose bodies (probDistributionFunction.cpp) are missing from the
    sources. "Scaled accessors apply a sample-size factor
    sqrt(n0·n1/(n0+n1))". *)
Definition scale_factor (n0 n1 : Z) : A :=
  num_sqrt (num_of_Z (n0 * n1) / num_of_Z (n0 + n1)).

(** Modelled from the spec: a scaled accessor of the base class, missing
    from the sources. "PreconditionViolation: requesting scaled distances
    before computeDistanceTo has been invoked". *)
Definition scaled_distance (field : ProbDistributionFunctionAnyD -> A)
    (this other : ProbDistributionFunctionAnyD) : outcome A :=
  if compared this
  then Ret (scale_factor (_nSamples this) (_nSamples other) * field this)
  else Throw PreconditionViolation.

Definition AnyD_getScaledKSDistanceTo := scaled_distance _LInfDist.

(** Probability distributions in 1D. *)
Record ProbDistributionFunction1D : Type := {
  base : ProbDistributionFunctionAnyD;
  _pdf : std_map
}.

Definition getPdf (p : ProbDistributionFunction1D) : std_map := _pdf p.

(** measure used in Kolmogorov-Smirnov test: the body in the header
    forwards to the base class. *)
Definition getScaledKSDistanceTo (this other : ProbDistributionFunction1D)
    : outcome A :=
  AnyD_getScaledKSDistanceTo (base this) (base other).

(** Modelled from the spec: the two other scaled accessors, declared in the
    header and missing from the sources, with the same factor and the same
    precondition. *)
Definition getScaledCvMDistanceTo (this other : ProbDistributionFunction1D)
    : outcome A :=
  scaled_distance _CvMDist (base this) (base other).

Definition getScaledL2DistanceTo (this other : ProbDistributionFunction1D)
    : outcome A :=
  scaled_distance _L2Dist (base this) (base other).

Section Compare.

(** The three distances of two cumulative tables (§4.4 of the
    specification; the body of computePDFdistTo is missing from the
    sources). *)
Variable distances : std_map -> std_map -> A * A * A.

(** Modelled from the spec: computePDFdistTo, missing from the sources.
    "a mutating comparison step that must be invoked before distance
    accessors are valid". *)
Definition computePDFdistTo (other this : ProbDistributionFunction1D)
    : ProbDistributionFunction1D :=
  let '(l2, linf, cvm) := distances (_pdf this) (_pdf other) in
  {| base := {| _nSamples := _nSamples (base this);
                _L2Dist := l2; _LInfDist := linf; _CvMDist := cvm;
                compared := true |};
     _pdf := _pdf this |}.

End Compare.

Section InverseCDF.

(** The specification asks for a monotonic table and does not say
    whether equal neighbours are monotonic: [increases] is the test on
    two neighbouring values, < or <=. *)
Variable increases : A -> A -> bool.

(** Modelled from the spec: aol::DiscreteValueInterpolator, missing from
    the sources, as far as PRNGForGivenDistr1D uses it: the table set by
    setVals. *)
Record DiscreteValueInterpolator : Type := { _vals : std_map }.

Definition setVals (vals : std_map) : DiscreteValueInterpolator :=
  {| _vals := vals |}.

Fixpoint isMonotonic (m : std_map) : bool :=
  match m with
  | (_, v) :: (((_, v') :: _) as m') => increases v v' && isMonotonic m'
  | _ => true
  end.

(** The table read from the values to the keys. *)
Definition inverted (m : std_map) : std_map :=
  fold_left (fun acc e => map_assign (snd e) (fst e) acc) m [].

(** Modelled from the spec: invertIfMonotonic. "builds a monotonic
    piecewise-linear interpolant mapping cumulative probability to
    value; construction fails (or must assert) if the supplied
    cumulative table is not monotonic". *)
Definition invertIfMonotonic (d : DiscreteValueInterpolator)
    : outcome DiscreteValueInterpolator :=
  if isMonotonic (_vals d)
  then Ret {| _vals := inverted (_vals d) |}
  else Throw PreconditionViolation.

(** The table [PRNGForGivenDistr1D::init] hands to setVals:
    [std::map<RealType, RealType> pdf ( GivenDistr.getPdf() );
     RealType zval = pdf.begin()->first;
     pdf [ zval - 1.0e-6 ] = 0;]
    [None] when the map is empty: [pdf.begin()] is then [pdf.end()], and
    reading through it is undefined. *)
Definition init_table (GivenDistr : ProbDistributionFunction1D)
    : option std_map :=
  let pdf := getPdf GivenDistr in
  match map_begin pdf with
  | None => None
  | Some (zval, _) => Some (map_assign (zval - num_lit 1.0e-6) (num_of_Z 0) pdf)
  end.

(** [_dvi.setVals ( pdf ); _dvi.invertIfMonotonic();] *)
Definition init (GivenDistr : ProbDistributionFunction1D)
    : option (outcome DiscreteValueInterpolator) :=
  match init_table GivenDistr with
  | None => None
  | Some pdf => Some (invertIfMonotonic (setVals pdf))
  end.

(** Pseudo-Random Number Generator that produces random numbers for a
    given 1D probability distribution. *)
Record PRNGForGivenDistr1D : Type := {
  _prng : RandomGenerator;
  _dvi : DiscreteValueInterpolator
}.

Variable seed_words : Z -> list Z.

(** [PRNGForGivenDistr1D ( GivenDistr, Seed ) : _prng ( Seed )
     { init ( GivenDistr ); }] *)
Definition PRNGForGivenDistr1D_new (GivenDistr : ProbDistributionFunction1D)
    (Seed : Z) : option (outcome PRNGForGivenDistr1D) :=
  match init GivenDistr with
  | None => None
  | Some (Ret d) =>
      Some (Ret {| _prng := RandomGenerator_new seed_words Seed; _dvi := d |})
  | Some (Throw e) => Some (Throw e)
  | Some Diverge => Some Diverge
  end.

End InverseCDF.

End ProbDistribution.

Arguments ProbDistributionFunctionAnyD A : clear implicits.
Arguments ProbDistributionFunction1D A : clear implicits.
Arguments DiscreteValueInterpolator A : clear implicits.
Arguments PRNGForGivenDistr1D A : clear implicits.
Arguments std_map A : clear implicits.

(* ------------------------------------------------------------------------- *)
(** ** The notions the properties are stated with *)

(** The run of a [do … while] loop that leaves the loop in its round number
    [k] (from 0): the rounds before it all ask for another round. *)
Inductive leaves_in_round {St X} (body : M St X) (again : X -> bool)
  : nat -> St -> X -> St -> Prop :=
| leaves_now s x s' :
    body s = Ret (x, s') -> again x = false ->
    leaves_in_round body again 0 s x s'
| leaves_later k s x0 s0 x s' :
    body s = Ret (x0, s0) -> again x0 = true ->
    leaves_in_round body again k s0 x s' ->
    leaves_in_round body again (S k) s x s'.

Section SpecWords.

Context {A : Type} {RT : RealType A}.
Variable G : Type.
Variable getNextRnd : G -> Z * G.

Local Open Scope num_scope.

(** "in [min, max)", for a RealType and for an integer. *)
Definition in_range (min max v : A) : Prop :=
  (min <=? v) = true /\ (v <? max) = true.

Definition in_rangeZ (min max v : Z) : Prop := (min <= v < max)%Z.

(** The generator after [k] raw words have been taken, and the word taken
    next. *)
Fixpoint skip_words (k : nat) (g : G) : G :=
  match k with
  | O => g
  | S k' => skip_words k' (snd (getNextRnd g))
  end.

Definition word (k : nat) (g : G) : Z := fst (getNextRnd (skip_words k g)).

(** "(hi + lo/2^32) / 2^32" *)
Definition candidate (hi lo : Z) : A :=
  (num_of_Z hi + num_of_Z lo / num_lit 4294967296) / num_lit 4294967296.

(** The candidate of attempt number [j] (from 0): words [2j] and [2j+1]. *)
Definition attempt (j : nat) (g : G) : A :=
  candidate (word (2 * j) g) (word (2 * j + 1) g).

(** "reject the pair unless 0 < x1²+x2² < 1": the sampler with this test in
    place of the one of the source. *)
Definition normal_again_claimed (t : A * A * A) : bool :=
  let '(_, _, w) := t in negb ((w >? num_of_Z 0) && (w <? num_of_Z 1)).

Definition normalrReal_claimed (fuel : nat) (mean stddev : A) : M G A :=
  t <- do_while fuel (normal_body G getNextRnd fuel) normal_again_claimed ;;
  ret (normal_value mean stddev t).

(** "ln(1)+ln(2)+...+ln(n)", summed from the left. *)
Fixpoint sum_ln (n : nat) : A :=
  match n with
  | O => num_lit 0
  | S k => sum_ln k + num_log (num_of_Z (Z.of_nat (S k)))
  end.

(** What holds of the static table between calls: it has its FAK_LEN
    entries, and once [initialized] is set, entry [i] is the cumulative sum
    up to [i]. *)
Definition fac_ok (st : LnFacStatic A) : Prop :=
  List.length (fac_table st) = Z.to_nat FAK_LEN /\
  (initialized st = true ->
   forall i, (1 <= i < Z.to_nat FAK_LEN)%nat ->
             nth i (fac_table st) num_zero = sum_ln i).

(** "(n+0.5)·ln(n) − n + C0 + C1/n + C3/n³" *)
Definition stirling_series (n : Z) : A :=
  let x := num_of_Z n in
  (x + num_lit 0.5) * num_log x - x + C0 + C1 / x + C3 / (x * x * x).

End SpecWords.

(** The laws of the comparisons that the error paths of poissonrInt rest on.
    They hold for the real numbers and for binary64. The conversion to [int]
    is not negative for a value that is not below 0 and is below 2^31; of a
    NaN, for which both comparisons are false, nothing is said. *)
Class RealOrder (A : Type) {RT : RealType A} : Prop := {
  ltb_trans : forall x y z : A,
    num_ltb x y = true -> num_ltb y z = true -> num_ltb x z = true;
  ltb_irrefl : forall x : A, num_ltb x x = false;
  eqb_ltb : forall x y z : A,
    num_eqb x y = true -> num_ltb x z = num_ltb y z;
  to_Z_nonneg : forall x : A,
    num_ltb x (num_of_Z 0) = false -> num_ltb x (num_lit 2147483648) = true ->
    0 <= num_to_Z x;
  lit_0_1em6 : num_ltb (num_of_Z 0) (num_lit 1e-6) = true;
  lit_1em6_17 : num_ltb (num_lit 1e-6) (num_of_Z 17) = true;
  lit_17_2e9 : num_ltb (num_of_Z 17) (num_lit 2e9) = true
}.

(* ------------------------------------------------------------------------- *)
(** ** ProbDistFuncHelper: from samples to histograms *)

(** [unsigned int] arithmetic: the counts of a histogram. *)
Definition uint (z : Z) : Z := z mod 2 ^ 32.

Section KeyedMaps.

(** [std::map< Key, unsigned int >] for a key type with its [operator<]: the
    entries in ascending order of the keys. *)
Variable K : Type.
Variable key_ltb : K -> K -> bool.

Definition histogram : Type := list (K * Z).

(** [m[k]] changed in place by [f] ([++( m[k] )], [m[k] += h], [m[k] = h]):
    [operator[]] adds an entry with the value 0 where no key is equivalent to
    [k], and keeps the key of the entry that is there otherwise. *)
Fixpoint map_modify (f : Z -> Z) (k : K) (m : histogram) : histogram :=
  match m with
  | [] => [(k, f 0)]
  | (k', v') :: m' =>
      if key_ltb k k' then (k, f 0) :: (k', v') :: m'
      else if key_ltb k' k then (k', v') :: map_modify f k m'
      else (k', f v') :: m'
  end.

(** [m.find ( k )->second], and 0 where [find] gives [m.end()]. *)
Fixpoint map_count (k : K) (m : histogram) : Z :=
  match m with
  | [] => 0
  | (k', v') :: m' =>
      if key_ltb k k' then 0
      else if key_ltb k' k then map_count k m'
      else v'
  end.

(** Two keys are one key of the map when neither is less than the other. *)
Definition equivalent (a b : K) : bool :=
  negb (key_ltb a b) && negb (key_ltb b a).

(** The keys of a map are strictly ascending. *)
Fixpoint ascending (m : histogram) : Prop :=
  match m with
  | (k, _) :: (((k', _) :: _) as m') => key_ltb k k' = true /\ ascending m'
  | _ => True
  end.

(** The sum of the counts. *)
Definition total (m : histogram) : Z :=
  fold_right (fun e acc => snd e + acc) 0 m.

End KeyedMaps.

Section Histograms.

Context {A : Type} {RT : RealType A}.

(** [aol::isFinite], from aol.h, which is not among the sources. *)
Variable isFinite : A -> bool.

(** [samplesToHisto1D ( Samples, Histogram )], for samples of the RealType;
    the result is the histogram the reference is left with. *)
Definition samplesToHisto1D (Samples : list A) (Histogram : histogram A)
    : histogram A :=
  (* Histogram.clear(); *)
  fold_left
    (fun H s =>
       if isFinite s then map_modify A num_ltb (fun c => uint (c + 1)) s H
       else H)
    Samples [].

(** [discreteHistoToHisto ( DiscreteHisto, Histogram )], for a vector of
    [unsigned int], as ProbDistributionFunction1DForDiscreteHisto calls it. *)
Definition discreteHistoToHisto (DiscreteHisto : list Z) (Histogram : histogram A)
    : histogram A :=
  (* Histogram.clear(); *)
  fold_left
    (fun H i =>
       map_modify A num_ltb (fun _ => nth i DiscreteHisto 0)
         (num_of_Z (Z.of_nat i)) H)
    (seq 0 (List.length DiscreteHisto)) [].

(** [vecHistoToHisto ( Xvalues, Hvalues, Histogram )]: the histogram is not
    cleared. *)
Definition vecHistoToHisto (Xvalues : list A) (Hvalues : list Z)
    (Histogram : histogram A) : outcome (histogram A) :=
  if negb (Nat.eqb (List.length Xvalues) (List.length Hvalues))
  then Throw (Exception "Vector size mismatch.")
  else
    (* this way, we sort for x values and keep track of corresponding h values *)
    Ret (fold_left
           (fun H xh => map_modify A num_ltb (fun c => uint (c + snd xh)) (fst xh) H)
           (combine Xvalues Hvalues) Histogram).

(** [operator<] of [aol::Vec2<RealType>], from vec.h, which is not among the
    sources. *)
Variable Pt2d_ltb : A * A -> A * A -> bool.

(** [samplesToHisto2D ( Samples, Histogram )] for a MultiVector given by its
    components, of [size] entries each ([getEqualComponentSize ( )]). *)
Definition samplesToHisto2D (Samples : list (list A)) (size : nat)
    (Histogram : histogram (A * A)) : outcome (histogram (A * A)) :=
  if negb (Nat.eqb (List.length Samples) 2)
  then Throw (Exception "Illegal MultiVector for samples")
  else
    (* Histogram.clear(); *)
    Ret (fold_left
           (fun H i =>
              let x := nth i (nth 0 Samples []) num_zero in
              let y := nth i (nth 1 Samples []) num_zero in
              if isFinite x && isFinite y
              then map_modify (A * A) Pt2d_ltb (fun c => uint (c + 1)) (x, y) H
              else H)
           (seq 0 size) []).

(** What the pairs ([Xvalues[i]], [Hvalues[i]]) add at the key [k]: the sum
    of the [Hvalues[i]] whose [Xvalues[i]] is equivalent to it. *)
Definition weight (k : A) (Xvalues : list A) (Hvalues : list Z) : Z :=
  fold_right
    (fun xh w => if equivalent A num_ltb (fst xh) k then snd xh + w else w)
    0 (combine Xvalues Hvalues).

(** The samples that count for the key [k]: the finite ones equivalent to
    it. *)
Definition occurrences (k : A) (Samples : list A) : Z :=
  Z.of_nat
    (List.length (filter (fun s => isFinite s && equivalent A num_ltb s k) Samples)).

End Histograms.

(** The finite numbers of binary64 (neither a NaN nor an infinity): the value
    of the parameter [isFinite] in the runs on binary64. *)
Definition double_isFinite (x : float) : bool :=
  match Prim2SF x with
  | S754_zero _ | S754_finite _ _ _ => true
  | _ => false
  end.

(* ========================================================================= *)
(** * Properties *)

(** ** The two arithmetics *)

Module RealFacts.
Import RealNumbers.

Lemma ltb_true (x y : R) : ltb x y = true <-> (x < y)%R.
Proof. unfold ltb; destruct (Rlt_dec x y); split; auto; discriminate. Qed.

Lemma ltb_false (x y : R) : ltb x y = false <-> (y <= x)%R.
Proof.
  unfold ltb; destruct (Rlt_dec x y); split; intros; auto; try discriminate; lra.
Qed.

Lemma leb_true (x y : R) : leb x y = true <-> (x <= y)%R.
Proof. unfold leb; destruct (Rle_dec x y); split; auto; discriminate. Qed.

Lemma leb_false (x y : R) : leb x y = false <-> (y < x)%R.
Proof.
  unfold leb; destruct (Rle_dec x y); split; intros; auto; try discriminate; lra.
Qed.

Lemma eqb_true (x y : R) : eqb x y = true <-> x = y.
Proof. unfold eqb; destruct (Req_dec_T x y); split; auto; discriminate. Qed.

Lemma real_trunc_nonneg (x : R) : (0 <= x)%R -> 0 <= trunc x.
Proof.
  intros Hx. unfold trunc. destruct (Rle_dec 0 x) as [_|n]; [|contradiction].
  destruct (base_Int_part x) as [Hle Hgt].
  assert (H : (-1 < IZR (Int_part x))%R) by lra.
  apply lt_IZR in H. lia.
Qed.

Lemma Q2R_1em6 : Q2R 1e-6 = (1 / 1000000)%R.
Proof. unfold Q2R; simpl. lra. Qed.

#[global] Instance real_order : RealOrder R.
Proof.
  constructor; cbn [num_ltb num_eqb num_to_Z num_of_Z num_lit real].
  - intros x y z. rewrite !ltb_true. lra.
  - intros x. rewrite ltb_false. lra.
  - intros x y z. rewrite eqb_true. now intros ->.
  - intros x H _. apply real_trunc_nonneg. now apply ltb_false.
  - rewrite ltb_true, Q2R_1em6. lra.
  - rewrite ltb_true, Q2R_1em6. lra.
  - rewrite ltb_true. unfold Q2R; simpl. lra.
Qed.

End RealFacts.

(** The comparisons of binary64 through their specification on [spec_float]. *)
Module DoubleFacts.
Import Double.

(** The comparison of the specification of binary64, as an order. *)
Ltac order_cases :=
  repeat match goal with
    | |- context [Z.compare ?a ?b] => destruct (Z.compare_spec a b)
    | |- context [Pos.compare_cont Eq ?a ?b] =>
        change (Pos.compare_cont Eq a b) with (Pos.compare a b);
        destruct (Pos.compare_spec a b)
    | H : context [Z.compare ?a ?b] |- _ => destruct (Z.compare_spec a b)
    | H : context [Pos.compare_cont Eq ?a ?b] |- _ =>
        change (Pos.compare_cont Eq a b) with (Pos.compare a b) in H;
        destruct (Pos.compare_spec a b)
    end;
  subst; simpl in *; try discriminate; try reflexivity; try lia.

Lemma SFcompare_Lt_trans (x y z : spec_float) :
  SFcompare x y = Some Lt -> SFcompare y z = Some Lt -> SFcompare x z = Some Lt.
Proof.
  destruct x as [sx|sx| |sx mx ex], y as [sy|sy| |sy my ey], z as [sz|sz| |sz mz ez];
    try destruct sx; try destruct sy; try destruct sz; simpl;
    try discriminate; try reflexivity; intros Hxy Hyz; order_cases.
Qed.

Lemma SFcompare_refl_not_Lt (x : spec_float) : SFcompare x x <> Some Lt.
Proof.
  destruct x as [s|s| |s m e]; try destruct s; simpl; try discriminate;
    rewrite Z.compare_refl;
    change (Pos.compare_cont Eq m m) with (Pos.compare m m);
    rewrite Pos.compare_refl; discriminate.
Qed.

Lemma SFcompare_Eq_left (x y z : spec_float) :
  SFcompare x y = Some Eq -> SFcompare x z = SFcompare y z.
Proof.
  destruct x as [sx|sx| |sx mx ex], y as [sy|sy| |sy my ey], z as [sz|sz| |sz mz ez];
    try destruct sx; try destruct sy; try destruct sz; simpl;
    try discriminate; try reflexivity; intros Hxy; order_cases.
Qed.

Lemma ltb_SFcompare (x y : float) :
  PrimFloat.ltb x y = true <-> SFcompare (Prim2SF x) (Prim2SF y) = Some Lt.
Proof.
  rewrite FloatAxioms.ltb_spec. unfold SFltb.
  destruct (SFcompare (Prim2SF x) (Prim2SF y)) as [[]|]; split; congruence.
Qed.

Lemma double_trunc_nonneg (x : float) :
  PrimFloat.ltb x (of_Z 0) = false ->
  PrimFloat.ltb x (of_Q 2147483648) = true ->
  0 <= trunc x.
Proof.
  intros H Hlt. apply ltb_SFcompare in Hlt. unfold trunc, trunc_finite.
  destruct (Prim2SF x) as [s|s| |s m e] eqn:E.
  - lia.
  - destruct s.
    + assert (T : PrimFloat.ltb x (of_Z 0) = true).
      { apply ltb_SFcompare. rewrite E. reflexivity. }
      congruence.
    + vm_compute in Hlt. discriminate.
  - vm_compute in Hlt. discriminate.
  - destruct s.
    + exfalso. assert (T : PrimFloat.ltb x (of_Z 0) = true).
      { apply ltb_SFcompare. rewrite E. reflexivity. }
      congruence.
    + destruct e; [lia| |].
      * lia.
      * apply Z.div_pos; lia.
Qed.

#[global] Instance double_order : RealOrder float.
Proof.
  constructor; cbn [num_ltb num_eqb num_to_Z num_of_Z num_lit double].
  - intros x y z. rewrite !ltb_SFcompare. apply SFcompare_Lt_trans.
  - intros x. destruct (PrimFloat.ltb x x) eqn:E; [|reflexivity].
    apply ltb_SFcompare in E. now apply SFcompare_refl_not_Lt in E.
  - intros x y z. rewrite FloatAxioms.eqb_spec, !FloatAxioms.ltb_spec. unfold SFeqb, SFltb.
    destruct (SFcompare (Prim2SF x) (Prim2SF y)) as [[]|] eqn:E; try discriminate.
    intros _. now rewrite (SFcompare_Eq_left _ _ _ E).
  - apply double_trunc_nonneg.
  - reflexivity.
  - reflexivity.
  - reflexivity.
Qed.
End DoubleFacts.

(* ------------------------------------------------------------------------- *)
(** ** The loops *)

Section Loops.

Context {St X : Type}.

Lemma bind_Ret {Y} (m : M St X) (k : X -> M St Y) s y s' :
  bind m k s = Ret (y, s') <->
  exists x s0, m s = Ret (x, s0) /\ k x s0 = Ret (y, s').
Proof.
  unfold bind. split.
  - destruct (m s) as [[x s0]| |]; try discriminate. eauto.
  - intros (x & s0 & -> & Hk). exact Hk.
Qed.

Lemma bind_Throw {Y} (m : M St X) (k : X -> M St Y) s e :
  bind m k s = Throw e <->
  m s = Throw e \/ exists x s0, m s = Ret (x, s0) /\ k x s0 = Throw e.
Proof.
  unfold bind. split.
  - destruct (m s) as [[x s0]| |]; try discriminate; intros Hk;
      [right; exists x, s0; split; [reflexivity | exact Hk] | left; congruence].
  - intros [H | (x & s0 & H & Hk)]; rewrite H; auto.
Qed.

Variable body : M St X.
Variable again : X -> bool.

(** A [do … while] loop returns exactly what its first round that does not
    ask for another one produced, when the budget covers that round. *)
Lemma do_while_leaves fuel s x s' :
  do_while fuel body again s = Ret (x, s') <->
  exists k, (k < fuel)%nat /\ leaves_in_round body again k s x s'.
Proof.
  revert s. induction fuel as [|fuel IH]; intros s; simpl.
  - split; [discriminate | intros (k & Hk & _); lia].
  - rewrite bind_Ret. split.
    + intros (x0 & s0 & Hb & Hk). destruct (again x0) eqn:Ha.
      * apply IH in Hk. destruct Hk as (k & Hlt & Hl).
        exists (S k). split; [lia|]. eapply leaves_later; eauto.
      * inversion Hk; subst. exists O. split; [lia|]. now apply leaves_now.
    + intros (k & Hlt & Hl).
      inversion Hl as [? ? ? Hb Ha | k0 ? x0 s0 ? ? Hb Ha Hrest]; subst.
      * exists x, s'. split; [assumption|]. now rewrite Ha.
      * exists x0, s0. split; [assumption|]. rewrite Ha.
        apply IH. exists k0. split; [lia | assumption].
Qed.

Lemma leaves_in_round_last k s x s' :
  leaves_in_round body again k s x s' ->
  again x = false /\ exists s0, body s0 = Ret (x, s').
Proof. induction 1; eauto. Qed.

Lemma do_while_last fuel s x s' :
  do_while fuel body again s = Ret (x, s') ->
  again x = false /\ exists s0, body s0 = Ret (x, s').
Proof.
  intros H. apply do_while_leaves in H. destruct H as (k & _ & H).
  eapply leaves_in_round_last; eauto.
Qed.

Lemma do_while_Throw fuel s e :
  do_while fuel body again s = Throw e -> exists s0, body s0 = Throw e.
Proof.
  revert s. induction fuel as [|fuel IH]; intros s; simpl; [discriminate|].
  rewrite bind_Throw. intros [H | (x & s0 & Hb & Hk)]; eauto.
  destruct (again x); [eauto | discriminate].
Qed.

End Loops.

Section Forever.

Context {St X : Type}.
Variable body : M St (option X).

Lemma forever_Ret fuel s v s' :
  forever fuel body s = Ret (v, s') -> exists s0, body s0 = Ret (Some v, s').
Proof.
  revert s. induction fuel as [|fuel IH]; intros s; simpl; [discriminate|].
  rewrite bind_Ret. intros (r & s0 & Hb & Hk).
  destruct r as [v0|]; [|eauto].
  inversion Hk; subst. eauto.
Qed.

Lemma forever_Throw fuel s e :
  forever fuel body s = Throw e -> exists s0, body s0 = Throw e.
Proof.
  revert s. induction fuel as [|fuel IH]; intros s; simpl; [discriminate|].
  rewrite bind_Throw. intros [H | (r & s0 & Hb & Hk)]; eauto.
  destruct r; [discriminate | eauto].
Qed.

End Forever.

(* ------------------------------------------------------------------------- *)
(** ** The uniform samplers *)

Section UniformRange.

Context {A : Type} {RT : RealType A}.
Variable G : Type.
Variable getNextRnd : G -> Z * G.

Local Open Scope num_scope.

Lemma rangeCheck_in_range (v min max : A) :
  rangeCheck v min max = true <-> in_range min max v.
Proof. unfold rangeCheck, in_range. rewrite andb_true_iff. tauto. Qed.

Lemma rangeCheckZ_in_range (v min max : Z) :
  rangeCheckZ v min max = true <-> in_rangeZ min max v.
Proof. unfold rangeCheckZ, in_rangeZ. lia. Qed.

(** A loop that repeats while rangeCheck fails returns a value in range. *)
Lemma checked_loop_in_range fuel (body : M G A) min max g r g' :
  do_while fuel body (fun r => negb (rangeCheck r min max)) g = Ret (r, g') ->
  in_range min max r.
Proof.
  intros H. apply do_while_last in H. destruct H as [H _].
  apply negb_false_iff in H. now apply rangeCheck_in_range.
Qed.

Lemma checked_loop_in_rangeZ fuel (body : M G Z) min max g n g' :
  do_while fuel body (fun r => negb (rangeCheckZ r min max)) g = Ret (n, g') ->
  in_rangeZ min max n.
Proof.
  intros H. apply do_while_last in H. destruct H as [H _].
  apply negb_false_iff in H. now apply rangeCheckZ_in_range.
Qed.

(** C3. Every value a uniform sampler returns lies in its half-open range,
    whatever the state of the generator and the arguments: [rReal ( )] in
    [0,1), [rReal ( max )] in [0,max), [rReal ( min, max )] in [min,max),
    [rInt ( max )] in [0,max), [rInt ( min, max )] in [min,max), and the
    same for [rUnsignedInt]. *)
Theorem uniform_samplers_in_range (fuel : nat) (g g' : G) :
  (forall r, rReal G getNextRnd fuel g = Ret (r, g') ->
             in_range num_zero num_one r) /\
  (forall max r, rReal_max G getNextRnd fuel max g = Ret (r, g') ->
                 in_range num_zero max r) /\
  (forall min max r, rReal_min_max G getNextRnd fuel min max g = Ret (r, g') ->
                     in_range min max r) /\
  (forall max n, rInt_max G getNextRnd fuel max g = Ret (n, g') ->
                 in_rangeZ 0 max n) /\
  (forall min max n, rInt_min_max G getNextRnd fuel min max g = Ret (n, g') ->
                     in_rangeZ min max n) /\
  (forall max n, rUnsignedInt_max G getNextRnd fuel max g = Ret (n, g') ->
                 in_rangeZ 0 max n) /\
  (forall min max n,
      rUnsignedInt_min_max G getNextRnd fuel min max g = Ret (n, g') ->
      in_rangeZ min max n).
Proof.
  repeat split; intros;
    first [ eapply checked_loop_in_range; eassumption
          | eapply checked_loop_in_rangeZ; eassumption ].
Qed.

End UniformRange.

(** The seven samplers run on binary64 and on given raw words, each returning
    a value, which the theorem puts in the range. The first attempt of the
    first run is rejected: 4294967295 + 4294967295/2^32 rounds to 2^32, the
    candidate to 1. *)
Lemma uniform_samplers_in_range_witness :
  let run {X} (m : M Scripted.G X) := m [4294967295; 4294967295; 2147483648; 8192] in
  let g' : Scripted.G := [] in
  (run (rReal (RT := Double.double) _ Scripted.getNextRnd 2)
     = Ret (0x1.0000000000004p-1%float, g') /\
   in_range 0%float 1%float 0x1.0000000000004p-1%float) /\
  (run (rReal_max _ Scripted.getNextRnd 2 6%float)
     = Ret (0x1.8000000000006p+1%float, g') /\
   in_range 0%float 6%float 0x1.8000000000006p+1%float) /\
  (run (rReal_min_max _ Scripted.getNextRnd 2 (-3)%float 0%float)
     = Ret ((-0x1.7fffffffffffap+0)%float, g') /\
   in_range (-3)%float 0%float (-0x1.7fffffffffffap+0)%float) /\
  (run (rInt_max (RT := Double.double) _ Scripted.getNextRnd 2 6)
     = Ret (3, g') /\ in_rangeZ 0 6 3) /\
  (run (rInt_min_max (RT := Double.double) _ Scripted.getNextRnd 2 (-3) 0)
     = Ret (-1, g') /\ in_rangeZ (-3) 0 (-1)) /\
  (run (rUnsignedInt_max (RT := Double.double) _ Scripted.getNextRnd 2 6)
     = Ret (3, g') /\ in_rangeZ 0 6 3) /\
  (run (rUnsignedInt_min_max (RT := Double.double) _ Scripted.getNextRnd 2 2 6)
     = Ret (4, g') /\ in_rangeZ 2 6 4).
Proof.
  pose proof (uniform_samplers_in_range (RT := Double.double)
                Scripted.G Scripted.getNextRnd 2
                [4294967295; 4294967295; 2147483648; 8192] [])
    as (H1 & H2 & H3 & H4 & H5 & H6 & H7).
  cbv zeta.
  split; [split; [reflexivity | apply H1; reflexivity] | ].
  split; [split; [reflexivity | apply H2; reflexivity] | ].
  split; [split; [reflexivity | apply H3; reflexivity] | ].
  split; [split; [reflexivity | apply H4; reflexivity] | ].
  split; [split; [reflexivity | apply H5; reflexivity] | ].
  split; [split; [reflexivity | apply H6; reflexivity] | ].
  split; [reflexivity | apply H7; reflexivity].
Defined.

(* ------------------------------------------------------------------------- *)
(** ** rReal ( ): two raw words for each attempt *)

Section RealAttempts.

Context {A : Type} {RT : RealType A}.
Variable G : Type.
Variable getNextRnd : G -> Z * G.

Local Open Scope num_scope.

(** [static_cast<RealType>( 0xFFFFFFFF ) + one] is 2^32: in the real numbers
    and in binary64 the sum is exact, in binary32 both roundings give 2^32. *)
Hypothesis denom_exact : num_of_Z 0xFFFFFFFF + num_one = num_lit 4294967296.

Local Abbreviation skip := (skip_words G getNextRnd).
Local Abbreviation att := (attempt G getNextRnd).
Local Abbreviation rejected := (fun r : A => negb (rangeCheck r num_zero num_one)).

Lemma skip_words_plus (a b : nat) (g : G) : skip (a + b) g = skip b (skip a g).
Proof. revert g. induction a as [|a IH]; intros g; simpl; auto. Qed.

Lemma word_skip (a k : nat) (g : G) :
  word G getNextRnd (a + k) g = word G getNextRnd k (skip a g).
Proof. unfold word. now rewrite skip_words_plus. Qed.

Lemma attempt_skip (j : nat) (g : G) : att (S j) g = att j (skip 2 g).
Proof.
  unfold attempt.
  replace (2 * S j)%nat with (2 + 2 * j)%nat by lia.
  replace (2 + 2 * j + 1)%nat with (2 + (2 * j + 1))%nat by lia.
  now rewrite !word_skip.
Qed.

(** One round of the loop takes two words, the more significant first. *)
Lemma rReal_body_attempt (g : G) :
  rReal_body G getNextRnd g = Ret (att 0 g, skip 2 g).
Proof.
  unfold rReal_body, nextRnd, bind, ret, attempt, candidate, word. simpl.
  rewrite denom_exact.
  destruct (getNextRnd g) as [hi g1]; simpl.
  destruct (getNextRnd g1) as [lo g2]; reflexivity.
Qed.

Lemma rReal_leaves (k : nat) (g : G) (v : A) (g' : G) :
  leaves_in_round (rReal_body G getNextRnd) rejected k g v g' <->
  (forall j, (j < k)%nat -> rangeCheck (att j g) num_zero num_one = false) /\
  rangeCheck (att k g) num_zero num_one = true /\
  v = att k g /\ g' = skip (2 * (k + 1)) g.
Proof.
  revert g. induction k as [|k IH]; intros g.
  - split.
    + intros H. inversion H as [? ? ? Hb Ha | ]; subst.
      rewrite rReal_body_attempt in Hb. inversion Hb; subst.
      apply negb_false_iff in Ha. repeat split; auto. intros j Hj; lia.
    + intros (_ & Hacc & -> & ->). apply leaves_now.
      * apply rReal_body_attempt.
      * now rewrite Hacc.
  - replace (2 * (S k + 1))%nat with (2 + 2 * (k + 1))%nat by lia.
    rewrite skip_words_plus. split.
    + intros H. inversion H as [ | ? ? x0 s0 ? ? Hb Ha Hrest]; subst.
      rewrite rReal_body_attempt in Hb. inversion Hb; subst.
      apply negb_true_iff in Ha.
      apply IH in Hrest. destruct Hrest as (Hrej & Hacc & -> & ->).
      rewrite attempt_skip. repeat split; auto.
      intros [|j] Hj; [assumption|]. rewrite attempt_skip. apply Hrej. lia.
    + intros (Hrej & Hacc & -> & ->).
      eapply leaves_later.
      * apply rReal_body_attempt.
      * rewrite (Hrej O) by lia. reflexivity.
      * apply IH. rewrite <- attempt_skip. repeat split; auto.
        intros j Hj. rewrite <- attempt_skip. apply Hrej. lia.
Qed.

(** C4. [rReal ( )] returns exactly the first candidate that lies in [0,1):
    attempt number [j] takes the raw words number [2j] (hi) and [2j+1] (lo)
    of the generator and computes (hi + lo/2^32) / 2^32; the call returns the
    candidate of the first attempt [k] whose candidate passes the range
    check, and leaves the generator [2(k+1)] words further. *)
Theorem rReal_first_accepted (fuel : nat) (g : G) (v : A) (g' : G) :
  rReal G getNextRnd fuel g = Ret (v, g') <->
  exists k, (k < fuel)%nat /\
    (forall j, (j < k)%nat -> rangeCheck (att j g) num_zero num_one = false) /\
    rangeCheck (att k g) num_zero num_one = true /\
    v = att k g /\ g' = skip (2 * (k + 1)) g.
Proof.
  unfold rReal. rewrite do_while_leaves.
  split; intros (k & Hk & H); exists k; (split; [exact Hk|]);
    now apply rReal_leaves.
Qed.

End RealAttempts.

(** On binary64, with the raw words 4294967295, 4294967295, 2147483648, 8192
    to come: the candidate of attempt 0 rounds to 1 and is rejected, attempt 1
    is returned, four words are gone. *)
Lemma rReal_first_accepted_witness :
  rReal (RT := Double.double) Scripted.G Scripted.getNextRnd 2
    [4294967295; 4294967295; 2147483648; 8192; 7]
  = Ret (candidate (RT := Double.double) 2147483648 8192, [7]).
Proof.
  apply (proj2 (rReal_first_accepted (RT := Double.double)
                  Scripted.G Scripted.getNextRnd eq_refl 2
                  [4294967295; 4294967295; 2147483648; 8192; 7]
                  (candidate 2147483648 8192) [7])).
  exists 1%nat. split; [lia|]. split; [|repeat split].
  intros j Hj. assert (j = O) by lia. subst j. reflexivity.
Defined.

(** *** rReal ( ) over the real numbers *)

(** The denominator is 2^32 in both arithmetics. *)
Lemma real_denom_exact :
  num_add (num_of_Z (A := R) 0xFFFFFFFF) num_one = num_lit 4294967296.
Proof.
  cbn [num_add num_of_Z num_one num_lit RealNumbers.real].
  unfold Q2R; simpl. lra.
Qed.

Lemma double_denom_exact :
  num_add (num_of_Z (A := float) 0xFFFFFFFF) num_one = num_lit 4294967296.
Proof. reflexivity. Qed.

Section RealAttemptsExact.

Variable G : Type.
Variable getNextRnd : G -> Z * G.

(** getNextRnd returns an [unsigned int] of 32 bits. *)
Hypothesis word_32_bits : forall g, 0 <= fst (getNextRnd g) < 2 ^ 32.

(** Without rounding every candidate lies in [0,1). *)
Lemma real_candidate_in_range (hi lo : Z) :
  0 <= hi < 2 ^ 32 -> 0 <= lo < 2 ^ 32 ->
  rangeCheck (candidate (A := R) hi lo) num_zero num_one = true.
Proof.
  intros [Hhi0 Hhi] [Hlo0 Hlo].
  apply rangeCheck_in_range. unfold in_range, candidate.
  cbn [num_add num_div num_of_Z num_lit num_zero num_one num_leb num_ltb
         RealNumbers.real].
  rewrite RealFacts.leb_true, RealFacts.ltb_true.
  replace (Q2R 4294967296) with 4294967296%R by (unfold Q2R; simpl; lra).
  apply IZR_le in Hhi0, Hlo0.
  assert (Hhi' : (IZR hi <= 4294967295)%R) by (apply IZR_le; lia).
  assert (Hlo' : (IZR lo <= 4294967295)%R) by (apply IZR_le; lia).
  split.
  - apply Rmult_le_reg_r with 4294967296%R; [lra|].
    unfold Rdiv. rewrite Rmult_assoc, Rinv_l by lra. lra.
  - apply Rmult_lt_reg_r with 4294967296%R; [lra|].
    unfold Rdiv at 1. rewrite Rmult_assoc, Rinv_l by lra.
    assert (IZR lo / 4294967296 < 1)%R.
    { apply Rmult_lt_reg_r with 4294967296%R; [lra|].
      unfold Rdiv. rewrite Rmult_assoc, Rinv_l by lra. lra. }
    lra.
Qed.

(** So over the real numbers the loop of [rReal ( )] makes one round: the
    call returns, with the candidate of the first two words. *)
Lemma real_rReal_returns (fuel : nat) (g : G) :
  rReal (A := R) G getNextRnd (S fuel) g
  = Ret (attempt G getNextRnd 0 g, skip_words G getNextRnd 2 g).
Proof.
  unfold rReal. apply do_while_leaves. exists O. split; [lia|].
  apply (rReal_leaves G getNextRnd real_denom_exact).
  split; [intros j Hj; lia|]. split; [|split; reflexivity].
  apply real_candidate_in_range; apply word_32_bits.
Qed.

(** Nor do the loops of [rReal ( min, max )] for min < max and of
    [rReal ( max )] for 0 < max make a second round. *)
Lemma real_rReal_min_max_returns (fuel : nat) (min max : R) (g : G) :
  (min < max)%R ->
  rReal_min_max (A := R) G getNextRnd (S fuel) min max g
  = Ret ((min + attempt G getNextRnd 0 g * (max - min))%R,
         skip_words G getNextRnd 2 g).
Proof.
  intros Hlt. unfold rReal_min_max. cbn [do_while]. unfold bind at 1 2.
  rewrite real_rReal_returns. unfold ret at 1.
  assert (Hu : rangeCheck (attempt (A := R) G getNextRnd 0 g) num_zero num_one
               = true)
    by (apply real_candidate_in_range; apply word_32_bits).
  apply rangeCheck_in_range in Hu. destruct Hu as [Hu0 Hu1].
  cbn [num_leb num_ltb num_zero num_one RealNumbers.real] in Hu0, Hu1.
  apply RealFacts.leb_true in Hu0. apply RealFacts.ltb_true in Hu1.
  assert (Hin : rangeCheck (A := R)
                  (num_add min (num_mul (attempt G getNextRnd 0 g) (num_sub max min)))
                  min max = true).
  { apply rangeCheck_in_range. unfold in_range.
    cbn [num_leb num_ltb num_add num_mul num_sub RealNumbers.real].
    rewrite RealFacts.leb_true, RealFacts.ltb_true. split; nra. }
  rewrite Hin. reflexivity.
Qed.

Lemma real_rReal_max_returns (fuel : nat) (max : R) (g : G) :
  (0 < max)%R ->
  rReal_max (A := R) G getNextRnd (S fuel) max g
  = Ret ((max * attempt G getNextRnd 0 g)%R, skip_words G getNextRnd 2 g).
Proof.
  intros Hlt. unfold rReal_max. cbn [do_while]. unfold bind at 1 2.
  rewrite real_rReal_returns. unfold ret at 1.
  assert (Hu : rangeCheck (attempt (A := R) G getNextRnd 0 g) num_zero num_one
               = true)
    by (apply real_candidate_in_range; apply word_32_bits).
  apply rangeCheck_in_range in Hu. destruct Hu as [Hu0 Hu1].
  cbn [num_leb num_ltb num_zero num_one RealNumbers.real] in Hu0, Hu1.
  apply RealFacts.leb_true in Hu0. apply RealFacts.ltb_true in Hu1.
  assert (Hin : rangeCheck (A := R)
                  (num_mul max (attempt G getNextRnd 0 g)) num_zero max = true).
  { apply rangeCheck_in_range. unfold in_range.
    cbn [num_leb num_ltb num_mul num_zero RealNumbers.real].
    rewrite RealFacts.leb_true, RealFacts.ltb_true. split; nra. }
  rewrite Hin. reflexivity.
Qed.

End RealAttemptsExact.

(* ------------------------------------------------------------------------- *)
(** ** normalrReal: the polar method *)

Section Normal.

Context {A : Type} {RT : RealType A}.
Variable G : Type.
Variable getNextRnd : G -> Z * G.

Local Open Scope num_scope.

(** A round of the loop draws both coordinates in [-1, 1). *)
Lemma normal_body_pair fuel g x1 x2 w g' :
  normal_body G getNextRnd fuel g = Ret (x1, x2, w, g') ->
  in_range (num_of_Z (-1)) (num_of_Z 1) x1 /\
  in_range (num_of_Z (-1)) (num_of_Z 1) x2 /\
  w = x1 * x1 + x2 * x2.
Proof.
  unfold normal_body. rewrite bind_Ret. intros (a & g1 & H1 & H).
  apply bind_Ret in H. destruct H as (b & g2 & H2 & H).
  inversion H; subst.
  repeat split;
    solve [ eapply (checked_loop_in_range G); eassumption ].
Qed.

Lemma normal_again_false x1 x2 w :
  normal_again (x1, x2, w) = false <->
  (w >=? num_of_Z 1) = false /\ (w <? num_lit 1e-30) = false.
Proof. unfold normal_again. apply orb_false_iff. Qed.

(** C5, as the code has it. [normalrReal ( mean, stddev )] is the polar
    method with the acceptance test 1e-30 <= x1²+x2² < 1: it draws x1 and x2
    with [rReal ( -1, 1 )], that is in [-1,1), goes for another pair while
    [w >= 1 || w < 1E-30] for w = x1²+x2², and from the first pair it leaves
    the loop with returns x1·sqrt(-2·ln(w)/w)·stddev + mean. *)
Theorem normalrReal_polar (fuel : nat) (mean stddev : A) (g : G) (v : A) (g' : G) :
  normalrReal G getNextRnd fuel mean stddev g = Ret (v, g') <->
  exists k x1 x2 w,
    (k < fuel)%nat /\
    leaves_in_round (normal_body G getNextRnd fuel) normal_again k g (x1, x2, w) g' /\
    in_range (num_of_Z (-1)) (num_of_Z 1) x1 /\
    in_range (num_of_Z (-1)) (num_of_Z 1) x2 /\
    w = x1 * x1 + x2 * x2 /\
    (w >=? num_of_Z 1) = false /\ (w <? num_lit 1e-30) = false /\
    v = x1 * num_sqrt ((num_of_Z (-2) * num_log w) / w) * stddev + mean.
Proof.
  unfold normalrReal. rewrite bind_Ret. split.
  - intros ([[x1 x2] w] & g1 & Hloop & Hret).
    inversion Hret; subst.
    apply do_while_leaves in Hloop. destruct Hloop as (k & Hk & Hl).
    destruct (leaves_in_round_last _ _ _ _ _ _ Hl) as (Hagain & g0 & Hbody).
    apply normal_body_pair in Hbody. destruct Hbody as (R1 & R2 & Hw).
    apply normal_again_false in Hagain. destruct Hagain as (Ha & Hb).
    exists k, x1, x2, w. repeat split; auto; apply R1 || apply R2.
  - intros (k & x1 & x2 & w & Hk & Hl & _ & _ & _ & _ & _ & ->).
    exists (x1, x2, w), g'. split; [|reflexivity].
    apply do_while_leaves. eauto.
Qed.

End Normal.

(** C5, as the specification words it ("reject the pair unless
    0 < x1²+x2² < 1"), fails on binary64 with the raw words 2147483648, 8192,
    2147483648, 0 to come: they give x1 = 2^-50, x2 = 0 and w = 2^-100, which
    is positive and below 1, and below 1E-30. The sampler with the test of
    the specification returns from this pair; the source goes for the next
    pair (here x1 = 1/2, x2 = 0) and returns from that one. And a coordinate
    is drawn from [-1,1), not from (-1,1): the raw words 0, 0 give -1. *)
Lemma normalrReal_rejects_tiny_pair :
  rReal_min_max (RT := Double.double) Scripted.G Scripted.getNextRnd 1
    (-1)%float 1%float [0; 0; 7]
  = Ret ((-1)%float, [7]) /\
  normal_body (RT := Double.double) Scripted.G Scripted.getNextRnd 2
    [2147483648; 8192; 2147483648; 0; 3221225472; 0; 2147483648; 0; 7]
  = Ret (0x1p-50%float, 0%float, 0x1p-100%float,
         [3221225472; 0; 2147483648; 0; 7]) /\
  normal_again_claimed (RT := Double.double)
    (0x1p-50%float, 0%float, 0x1p-100%float) = false /\
  normal_again (RT := Double.double)
    (0x1p-50%float, 0%float, 0x1p-100%float) = true /\
  normalrReal_claimed (RT := Double.double) Scripted.G Scripted.getNextRnd 2
    0%float 1%float
    [2147483648; 8192; 2147483648; 0; 3221225472; 0; 2147483648; 0; 7]
  = Ret (0x1.78c56dd5dbb54p+3%float, [3221225472; 0; 2147483648; 0; 7]) /\
  normalrReal (RT := Double.double) Scripted.G Scripted.getNextRnd 2
    0%float 1%float
    [2147483648; 8192; 2147483648; 0; 3221225472; 0; 2147483648; 0; 7]
  = Ret (0x1.aa4499161cd47p+0%float, [7]).
Proof. repeat split; vm_compute; reflexivity. Qed.

(* ------------------------------------------------------------------------- *)
(** ** LnFac *)

Section LnFacFacts.

Context {A : Type} {RT : RealType A}.

Local Open Scope num_scope.

Lemma array_set_length (tbl : list A) (i : nat) (v : A) :
  List.length (array_set tbl i v) = List.length tbl.
Proof.
  revert i. induction tbl as [|x t IH]; intros [|i]; simpl; auto.
Qed.

Lemma nth_array_set_same (tbl : list A) (i : nat) (v d : A) :
  (i < List.length tbl)%nat -> nth i (array_set tbl i v) d = v.
Proof.
  revert i. induction tbl as [|x t IH]; intros [|i]; simpl; intros H;
    try lia; auto. apply IH. lia.
Qed.

Lemma nth_array_set_other (tbl : list A) (i j : nat) (v d : A) :
  i <> j -> nth j (array_set tbl i v) d = nth j tbl d.
Proof.
  revert i j. induction tbl as [|x t IH]; intros [|i] [|j]; simpl; intros H;
    try congruence; auto.
Qed.

(** The loop that fills the table, entered with [i], the sum up to [i-1] and
    a table that is right below [i], leaves the table right below
    [i + rounds] (and below FAK_LEN). *)
Lemma fill_fac_table_sums (rounds : nat) :
  forall (i : nat) (tbl : list A),
    (1 <= i)%nat ->
    List.length tbl = Z.to_nat FAK_LEN ->
    (forall j, (1 <= j < i)%nat -> nth j tbl num_zero = sum_ln j) ->
    let tbl' := fill_fac_table rounds (Z.of_nat i) (sum_ln (i - 1)) tbl in
    List.length tbl' = Z.to_nat FAK_LEN /\
    forall j, (1 <= j < Nat.min (i + rounds) (Z.to_nat FAK_LEN))%nat ->
              nth j tbl' num_zero = sum_ln j.
Proof.
  induction rounds as [|rounds IH]; intros i tbl Hi Hlen Hbelow;
    cbn [fill_fac_table].
  - split; [assumption|]. intros j Hj. apply Hbelow. lia.
  - destruct (Z.ltb_spec (Z.of_nat i) FAK_LEN) as [Hlt|Hge].
    + assert (Hsum : sum_ln (i - 1) + num_log (num_of_Z (Z.of_nat i)) = sum_ln i).
      { destruct i as [|i]; [lia|].
        replace (S i - 1)%nat with i by lia. reflexivity. }
      rewrite Hsum, Nat2Z.id.
      replace (Z.of_nat i + 1)%Z with (Z.of_nat (S i)) by lia.
      replace (i + S rounds)%nat with (S i + rounds)%nat by lia.
      specialize (IH (S i) (array_set tbl i (sum_ln i))).
      replace (S i - 1)%nat with i in IH by lia.
      apply IH.
      * lia.
      * now rewrite array_set_length.
      * intros j Hj. destruct (Nat.eq_dec i j) as [->|Hne].
        -- apply nth_array_set_same. rewrite Hlen. unfold FAK_LEN in *. lia.
        -- rewrite nth_array_set_other by assumption. apply Hbelow. lia.
    + split; [assumption|]. intros j Hj. apply Hbelow.
      unfold FAK_LEN in *. lia.
Qed.

Lemma fac_ok_init : fac_ok (LnFacStatic_init (A := A)).
Proof.
  split; cbn [LnFacStatic_init fac_table initialized].
  - apply repeat_length.
  - discriminate.
Qed.

(** [n < 0]: the exception. *)
Lemma LnFac_negative (st : LnFacStatic A) (n : Z) :
  (n < 0)%Z ->
  LnFac n st = Throw (Exception "Negative parameter in LnFac function!").
Proof.
  intros H. unfold LnFac, FAK_LEN.
  destruct (Z.ltb_spec n 100); [|lia].
  destruct (Z.leb_spec n 1); [|lia].
  destruct (Z.ltb_spec n 0); [reflexivity | lia].
Qed.

(** [n] is 0 or 1: [return 0], the table untouched. *)
Lemma LnFac_zero_one (st : LnFacStatic A) (n : Z) :
  (0 <= n <= 1)%Z -> LnFac n st = Ret (num_of_Z 0, st).
Proof.
  intros H. unfold LnFac, FAK_LEN.
  destruct (Z.ltb_spec n 100); [|lia].
  destruct (Z.leb_spec n 1); [|lia].
  destruct (Z.ltb_spec n 0); [lia | reflexivity].
Qed.

(** [2 <= n < FAK_LEN]: the entry of the table, which is built by the first
    such call and kept by the later ones. *)
Lemma LnFac_table (st : LnFacStatic A) (n : Z) :
  fac_ok st -> (2 <= n < FAK_LEN)%Z ->
  exists st', LnFac n st = Ret (sum_ln (Z.to_nat n), st') /\
              fac_ok st' /\ initialized st' = true.
Proof.
  intros [Hlen Hok] H. unfold LnFac.
  destruct (Z.ltb_spec n FAK_LEN); [|lia].
  destruct (Z.leb_spec n 1); [lia|].
  assert (Hn : (1 <= Z.to_nat n < Z.to_nat FAK_LEN)%nat) by lia.
  cbv beta zeta.
  destruct (initialized st) eqn:Hinit; cbn [negb].
  - exists st. repeat split; auto.
    now rewrite Hok.
  - pose proof (fill_fac_table_sums (Z.to_nat FAK_LEN) 1
                  (array_set (fac_table st) 0 (num_lit 0))) as Hfill.
    cbv zeta in Hfill. change (sum_ln (1 - 1)) with (num_lit (A := A) 0) in Hfill.
    change (Z.of_nat 1) with 1%Z in Hfill.
    destruct Hfill as [Hlen' Hsums].
    + lia.
    + rewrite array_set_length. exact Hlen.
    + intros j Hj; lia.
    + eexists. split; [|split; [split|]]; cbn [fac_table initialized].
      * f_equal. f_equal. apply Hsums. lia.
      * exact Hlen'.
      * intros _ i Hi. apply Hsums. lia.
      * reflexivity.
Qed.

(** [n >= FAK_LEN]: the expression of the last line, the table untouched. *)
Lemma LnFac_large (st : LnFacStatic A) (n : Z) :
  (FAK_LEN <= n)%Z ->
  LnFac n st =
  Ret (let r := num_lit 1 / num_of_Z n in
       (num_of_Z n + num_lit 0.5) * num_log (num_of_Z n) - num_of_Z n + C0
       + r * (C1 + r * r * C3), st).
Proof.
  intros H. unfold LnFac.
  destruct (Z.ltb_spec n FAK_LEN); [lia | reflexivity].
Qed.

(** Every call leaves the table as the next call expects it. *)
Lemma LnFac_keeps_fac_ok (st : LnFacStatic A) (n : Z) (v : A) (st' : LnFacStatic A) :
  fac_ok st -> LnFac n st = Ret (v, st') -> fac_ok st'.
Proof.
  intros Hok H.
  destruct (Z.lt_ge_cases n 0) as [Hneg|Hnonneg].
  - rewrite LnFac_negative in H by assumption. discriminate.
  - destruct (Z.le_gt_cases n 1) as [Hle|Hgt].
    + rewrite LnFac_zero_one in H by lia. congruence.
    + destruct (Z.lt_ge_cases n FAK_LEN) as [Hlt|Hge].
      * destruct (LnFac_table st n Hok) as (st1 & Hret & Hok1 & _); [lia|].
        congruence.
      * rewrite LnFac_large in H by assumption. congruence.
Qed.

(** Only a negative argument makes LnFac throw. *)
Lemma LnFac_Throw (st : LnFacStatic A) (n : Z) (e : exn) :
  LnFac n st = Throw e -> (n < 0)%Z.
Proof.
  unfold LnFac.
  destruct (Z.ltb_spec n FAK_LEN); [|discriminate].
  destruct (Z.leb_spec n 1); [|discriminate].
  destruct (Z.ltb_spec n 0); [auto | discriminate].
Qed.

End LnFacFacts.

(** *** LnFac over the real numbers *)

Section LnFacReal.

Local Open Scope R_scope.

Lemma Q2R_one : Q2R 1 = 1.
Proof. unfold Q2R; simpl. lra. Qed.

Lemma Q2R_zero : Q2R 0 = 0.
Proof. unfold Q2R; simpl. lra. Qed.

(** The cumulative sum is the logarithm of the factorial. *)
Lemma sum_ln_factorial (n : nat) : sum_ln (A := R) n = ln (INR (fact n)).
Proof.
  induction n as [|n IH].
  - cbn [sum_ln num_lit RealNumbers.real]. simpl fact.
    rewrite Q2R_zero. simpl INR. now rewrite ln_1.
  - cbn [sum_ln num_add num_log num_of_Z RealNumbers.real].
    rewrite IH, <- INR_IZR_INZ.
    rewrite <- ln_mult.
    + f_equal. rewrite <- mult_INR. f_equal. simpl fact. lia.
    + apply lt_0_INR. apply lt_O_fact.
    + apply lt_0_INR. lia.
Qed.

(** The constants of the source, as real numbers. *)
Lemma LnFac_constants :
  C0 (A := R) = Q2R 0.918938533204672722 /\
  C1 (A := R) = 1 / 12 /\
  C3 (A := R) = - 1 / 360.
Proof.
  unfold C0, C1, C3. cbn [num_lit num_div num_opp RealNumbers.real].
  repeat split; unfold Q2R; simpl; lra.
Qed.

(** The last line of LnFac evaluates the series of the specification in
    Horner form, with r = 1/n. *)
Lemma stirling_horner (n : Z) :
  (n <> 0)%Z ->
  (let r := num_lit 1 / num_of_Z n in
   (num_of_Z n + num_lit 0.5) * num_log (num_of_Z n) - num_of_Z n + C0
   + r * (C1 + r * r * C3))%num
  = stirling_series (A := R) n.
Proof.
  intros Hn. unfold stirling_series.
  cbn [num_lit num_of_Z num_add num_sub num_mul num_div num_log RealNumbers.real].
  cbv zeta. rewrite Q2R_one.
  assert (IZR n <> 0) by (now apply not_0_IZR).
  field. assumption.
Qed.

(** C6. LnFac over the real numbers, on a table that is as the calls leave
    it: the exception for n < 0; exactly 0 for n = 0 and n = 1; for
    2 <= n < 100 the cumulative sum ln(1)+…+ln(n), which is ln(n!), from the
    table; for n >= 100 the Stirling series
    (n+0.5)·ln(n) − n + C0 + C1/n + C3/n³ with C0 = 0.918938533204672722,
    C1 = 1/12 and C3 = −1/360. *)
Theorem LnFac_cases (st : LnFacStatic R) (n : Z) :
  fac_ok st ->
  ((n < 0)%Z ->
   LnFac n st = Throw (Exception "Negative parameter in LnFac function!")) /\
  ((0 <= n <= 1)%Z -> LnFac n st = Ret (0, st)) /\
  ((2 <= n < 100)%Z ->
   exists st', LnFac n st = Ret (sum_ln (Z.to_nat n), st') /\ fac_ok st' /\
               sum_ln (A := R) (Z.to_nat n) = ln (INR (fact (Z.to_nat n)))) /\
  ((100 <= n)%Z -> LnFac n st = Ret (stirling_series n, st)) /\
  C0 (A := R) = Q2R 0.918938533204672722 /\
  C1 (A := R) = 1 / 12 /\
  C3 (A := R) = - 1 / 360.
Proof.
  intros Hok. split; [|split; [|split; [|split]]].
  - apply LnFac_negative.
  - intros Hn. rewrite (LnFac_zero_one st n Hn). reflexivity.
  - intros Hn. destruct (LnFac_table st n Hok Hn) as (st' & Hret & Hok' & _).
    exists st'. repeat split; try assumption; try apply Hok'.
    apply sum_ln_factorial.
  - intros Hn. rewrite LnFac_large by exact Hn.
    rewrite stirling_horner by lia. reflexivity.
  - apply LnFac_constants.
Qed.

End LnFacReal.

(** On the table as it is before the first call: LnFac(-1) throws, LnFac(1)
    is 0, LnFac(10) is the cumulative sum and LnFac(150) the Stirling
    series. *)
Lemma LnFac_cases_witness :
  LnFac (A := R) (-1) LnFacStatic_init
    = Throw (Exception "Negative parameter in LnFac function!") /\
  LnFac (A := R) 1 LnFacStatic_init = Ret (0%R, LnFacStatic_init) /\
  (exists st', LnFac (A := R) 10 LnFacStatic_init = Ret (sum_ln 10, st') /\
               fac_ok st' /\
               sum_ln (A := R) 10 = ln (INR (fact 10))) /\
  LnFac (A := R) 150 LnFacStatic_init = Ret (stirling_series 150, LnFacStatic_init).
Proof.
  split; [|split; [|split]].
  - apply (proj1 (LnFac_cases LnFacStatic_init (-1) fac_ok_init)). lia.
  - apply (proj1 (proj2 (LnFac_cases LnFacStatic_init 1 fac_ok_init))). lia.
  - apply (proj1 (proj2 (proj2 (LnFac_cases LnFacStatic_init 10 fac_ok_init)))).
    lia.
  - apply (proj1 (proj2 (proj2 (proj2
             (LnFac_cases LnFacStatic_init 150 fac_ok_init))))). lia.
Defined.

(* ------------------------------------------------------------------------- *)
(** ** poissonrInt *)

Section PoissonFacts.

Context {A : Type} {RT : RealType A}.
Variable G : Type.
Variable getNextRnd : G -> Z * G.

Local Open Scope num_scope.

Variable Sqr : A -> A.

Local Abbreviation poisson := (poissonrInt G getNextRnd Sqr).

(** The uniform sampler does not throw, nor does it through [on_gen]. *)
Lemma rReal_no_Throw fuel g e : rReal G getNextRnd fuel g <> Throw e.
Proof.
  intros H. apply do_while_Throw in H. destruct H as (g0 & H).
  unfold rReal_body, nextRnd, bind, ret in H.
  destruct (getNextRnd g0) as [hi g1]. destruct (getNextRnd g1). discriminate.
Qed.

Lemma on_gen_rReal_no_Throw fuel (s : G * LnFacStatic A) e :
  on_gen G (rReal G getNextRnd fuel) s <> Throw e.
Proof.
  unfold on_gen. destruct (rReal G getNextRnd fuel (fst s)) as [[x g']| |] eqn:E;
    try discriminate.
  intros H. inversion H; subst. now apply rReal_no_Throw in E.
Qed.

Lemma on_static_LnFac_Throw n (s : G * LnFacStatic A) e :
  on_static G (LnFac n) s = Throw e -> (n < 0)%Z.
Proof.
  unfold on_static. destruct (LnFac n (snd s)) as [[x t]| |] eqn:E;
    try discriminate.
  intros _. eapply LnFac_Throw; eassumption.
Qed.

(** The walk of the direct simulation returns its counter, which it never
    lets above the bound. *)
Lemma poisson_walk_range (rounds : nat) :
  forall (Lambda r f : A) (x v : Z),
    poisson_walk rounds Lambda r f x = Some v ->
    (x <= bound)%Z -> (x <= v <= bound)%Z.
Proof.
  induction rounds as [|rounds IH]; intros Lambda r f x v; simpl;
    [discriminate|].
  destruct (r - f <=? num_of_Z 0).
  - intros H Hx. inversion H; subst. lia.
  - destruct (Z.leb_spec (x + 1) bound) as [Hle|Hgt]; [|discriminate].
    intros H Hx. apply IH in H; lia.
Qed.

(** The [bound + 1] rounds the model gives the walk are all the rounds the
    loop can make from 0: more rounds change nothing. *)
Lemma poisson_walk_rounds (rounds : nat) :
  forall (more : nat) (Lambda r f : A) (x : Z),
    (0 <= x <= bound)%Z ->
    rounds = Z.to_nat (bound + 1 - x) ->
    poisson_walk (rounds + more) Lambda r f x = poisson_walk rounds Lambda r f x.
Proof.
  induction rounds as [|rounds IH]; intros more Lambda r f x Hx Hr.
  - unfold bound in *. lia.
  - cbn [poisson_walk Nat.add].
    destruct (r - f <=? num_of_Z 0); [reflexivity|].
    destruct (Z.leb_spec (x + 1) bound) as [Hle|Hgt]; [|reflexivity].
    apply IH; unfold bound in *; lia.
Qed.

(** C10. For 1e-6 <= Lambda < 17 (the direct simulation), whatever
    [poissonrInt] returns lies in [0, 130], and is the counter some walk
    returned: a walk whose counter goes past the bound returns nothing and
    the outer loop starts over with a new draw. *)
Theorem poissonrInt_direct_bound (fuel : nat) (Lambda : A)
    (s : G * LnFacStatic A) (x : Z) (s' : G * LnFacStatic A) :
  (Lambda <? num_of_Z 17) = true ->
  (Lambda <? num_lit 1e-6) = false ->
  poisson fuel Lambda s = Ret (x, s') ->
  (0 <= x <= 130)%Z /\
  exists r, poisson_walk (Z.to_nat (bound + 1)) Lambda r (num_exp (- Lambda)) 0
            = Some x.
Proof.
  intros H17 H6 H. unfold poissonrInt in H. rewrite H17, H6 in H.
  remember (Z.to_nat (bound + 1)) as rounds eqn:Hrounds.
  apply forever_Ret in H. destruct H as (s0 & H).
  apply bind_Ret in H. destruct H as (r & s1 & _ & H).
  unfold ret in H.
  assert (Hwalk : poisson_walk rounds Lambda r (num_exp (- Lambda)) 0 = Some x)
    by congruence.
  split; [|eauto].
  apply poisson_walk_range in Hwalk; unfold bound in *; lia.
Qed.

Context {RO : RealOrder A}.

Lemma negative_below_17 (Lambda : A) :
  (Lambda <? num_of_Z 0) = true ->
  (Lambda <? num_lit 1e-6) = true /\ (Lambda <? num_of_Z 17) = true.
Proof.
  intros H.
  assert (H6 : (Lambda <? num_lit 1e-6) = true)
    by (eapply ltb_trans; [exact H | apply lit_0_1em6]).
  split; [exact H6|]. eapply ltb_trans; [exact H6 | apply lit_1em6_17].
Qed.

Lemma above_2e9_not_below_17 (Lambda : A) :
  (Lambda >? num_lit 2e9) = true -> (Lambda <? num_of_Z 17) = false.
Proof.
  intros H. destruct (Lambda <? num_of_Z 17) eqn:E; [|reflexivity].
  assert (C : (num_of_Z 17 <? num_of_Z 17) = true).
  { eapply ltb_trans; [apply lit_17_2e9|]. eapply ltb_trans; eassumption. }
  rewrite ltb_irrefl in C. discriminate.
Qed.

(** What [LnFac] throws, seen from poissonrInt. *)
Lemma on_static_LnFac_Throw_what n (s : G * LnFacStatic A) e :
  on_static G (LnFac n) s = Throw e ->
  (n < 0)%Z /\ e = Exception "Negative parameter in LnFac function!".
Proof.
  intros H. split; [eapply on_static_LnFac_Throw; exact H|].
  unfold on_static, LnFac, throw, ret in H.
  destruct (n <? FAK_LEN)%Z; [|discriminate].
  destruct (n <=? 1)%Z; [|discriminate].
  destruct (n <? 0)%Z; [|discriminate].
  congruence.
Qed.

(** A value that is not below 0 and is converted to a negative [int] is not
    below 2^31 either: a NaN, an infinity, or beyond the range of [int]. *)
Lemma negative_conversion (x : A) :
  (x <? num_of_Z 0) = false -> (num_to_Z x < 0)%Z ->
  (x <? num_lit 2147483648) = false.
Proof.
  intros H0 Hneg. destruct (x <? num_lit 2147483648) eqn:E; [|reflexivity].
  pose proof (to_Z_nonneg x H0 E). lia.
Qed.

(** Past the two tests of its argument, the only exception of a call is the
    one of LnFac, thrown for the conversion to [int] of a value that is not
    below 0 and yet gave a negative number. *)
Lemma Throw_past_the_tests fuel (Lambda : A) s e :
  (Lambda <? num_of_Z 0) = false -> (Lambda >? num_lit 2e9) = false ->
  poisson fuel Lambda s = Throw e ->
  e = Exception "Negative parameter in LnFac function!" /\
  (Lambda <? num_of_Z 17) = false /\
  exists x : A, (x <? num_of_Z 0) = false /\
                (x <? num_lit 2147483648) = false /\ (num_to_Z x < 0)%Z.
Proof.
  intros H0 H9 H. unfold poissonrInt in H. rewrite H0 in H.
  destruct (Lambda <? num_of_Z 17) eqn:H17.
  - exfalso. destruct (Lambda <? num_lit 1e-6).
    + destruct (Lambda =? num_of_Z 0); [discriminate|].
      apply bind_Throw in H. destruct H as [H | (u & s1 & _ & H)].
      * now apply on_gen_rReal_no_Throw in H.
      * destruct (u >=? num_sqrt Lambda); [discriminate|].
        apply bind_Throw in H. destruct H as [H | (u' & s2 & _ & H)].
        -- now apply on_gen_rReal_no_Throw in H.
        -- repeat match type of H with
                  | (if ?c then _ else _) _ = _ => destruct c
                  end; discriminate.
    + apply forever_Throw in H. destruct H as (s0 & H).
      apply bind_Throw in H. destruct H as [H | (r & s1 & _ & H)].
      * now apply on_gen_rReal_no_Throw in H.
      * discriminate.
  - rewrite H9 in H.
    apply bind_Throw in H. destruct H as [H | (lf & s1 & _ & H)].
    + apply on_static_LnFac_Throw_what in H. destruct H as [Hneg ->].
      split; [reflexivity|]. split; [reflexivity|].
      exists Lambda. split; [exact H0|]. split; [|exact Hneg].
      now apply negative_conversion.
    + apply forever_Throw in H. destruct H as (s0 & H).
      apply bind_Throw in H. destruct H as [H | (u & s2 & _ & H)].
      * now apply on_gen_rReal_no_Throw in H.
      * destruct (u =? num_of_Z 0); [discriminate|].
        apply bind_Throw in H. destruct H as [H | (u' & s3 & _ & H)].
        -- now apply on_gen_rReal_no_Throw in H.
        -- match type of H with
           | (if (?x <? _) || _ then _ else _) _ = _ =>
               destruct (x <? num_of_Z 0) eqn:Hx; cbn [orb] in H
           end; [discriminate|].
           match type of H with
           | (if ?c then _ else _) _ = _ => destruct c
           end; [discriminate|].
           apply bind_Throw in H. destruct H as [H | (lfk & s4 & _ & H)].
           ++ apply on_static_LnFac_Throw_what in H. destruct H as [Hneg ->].
              split; [reflexivity|]. split; [reflexivity|].
              eexists. split; [exact Hx|]. split; [|exact Hneg].
              now apply negative_conversion.
           ++ repeat match type of H with
                     | (if ?c then _ else _) _ = _ => destruct c
                     end; discriminate.
Qed.


End PoissonFacts.

(** On binary64, with the raw words 2147483648, 0 to come (the draw 1/2):
    [poissonrInt ( 5. )] returns 5, within the bound. *)
Lemma poissonrInt_direct_bound_witness :
  poissonrInt (RT := Double.double) Scripted.G Scripted.getNextRnd
    (fun x => x * x)%float 3 5%float
    ([2147483648; 0; 7], LnFacStatic_init)
  = Ret (5, ([7], LnFacStatic_init)) /\
  ((0 <= 5 <= 130) /\
   exists r : float,
     poisson_walk (Z.to_nat (bound + 1)) 5%float r (num_exp (- 5)%float) 0
     = Some 5).
Proof.
  assert (Hrun : poissonrInt (RT := Double.double) Scripted.G Scripted.getNextRnd
    (fun x => x * x)%float
                   3 5%float ([2147483648; 0; 7], LnFacStatic_init)
                 = Ret (5, ([7], LnFacStatic_init)))
    by (vm_compute; reflexivity).
  split; [exact Hrun|].
  exact (poissonrInt_direct_bound (RT := Double.double)
           Scripted.G Scripted.getNextRnd (fun x => x * x)%float 3 5%float
           ([2147483648; 0; 7], LnFacStatic_init) 5 ([7], LnFacStatic_init)
           eq_refl eq_refl Hrun).
Defined.



(* ------------------------------------------------------------------------- *)
(** ** Seeding and copying a RandomGenerator *)

Section Seeding.

Variable seed_words : Z -> list Z.
Variable twist : list Z -> list Z.
Variable temper : Z -> Z.

Lemma call_on_other (this other : nat) (f : RandomGenerator -> RandomGenerator)
    (h : instances) :
  other <> this -> call_on this f h other = h other.
Proof.
  intros H. unfold call_on.
  destruct (Nat.eqb_spec other this); [contradiction | reflexivity].
Qed.

Lemma call_on_this (this : nat) (f : RandomGenerator -> RandomGenerator)
    (h : instances) :
  call_on this f h this = option_map f (h this).
Proof. unfold call_on. now rewrite Nat.eqb_refl. Qed.

(** C7. After [g.reSeed ( s )] the generator is in the state of a newly
    constructed [RandomGenerator ( s )], whatever its state was: getSeed
    returns [s], every run of raw words drawn from it is the run the new
    generator gives, and calling reSeed on one generator object leaves every
    other object as it was. *)
Theorem reSeed_as_new (s : Z) (g : RandomGenerator) :
  reSeed seed_words s g = RandomGenerator_new seed_words s /\
  getSeed (reSeed seed_words s g) = s /\
  (forall n, draws twist temper n (reSeed seed_words s g)
             = draws twist temper n (RandomGenerator_new seed_words s)) /\
  (forall (h : instances) (this other : nat),
      other <> this ->
      call_on this (reSeed seed_words s) h other = h other) /\
  (forall (h : instances) (this : nat),
      h this = Some g ->
      call_on this (reSeed seed_words s) h this
      = Some (RandomGenerator_new seed_words s)).
Proof.
  assert (E : reSeed seed_words s g = RandomGenerator_new seed_words s)
    by reflexivity.
  split; [exact E|]. split; [reflexivity|]. split; [|split].
  - intros n. now rewrite E.
  - intros h this other H. now apply call_on_other.
  - intros h this H. rewrite call_on_this, H. simpl. now rewrite E.
Qed.

End Seeding.

(** C8. The copy constructor and the assignment operator of RandomGenerator
    throw aol::UnimplementedCodeException whatever the states of the two
    generators: neither ever returns, so no copy of a state is made. *)
Theorem RandomGenerator_no_copy (this other : RandomGenerator) :
  RandomGenerator_copy other
  = Throw (UnimplementedCodeException
             "aol::RandomGenerator copy constructor not implemented yet") /\
  RandomGenerator_assign other this
  = Throw (UnimplementedCodeException
             "aol::RandomGenerator::operator= not implemented yet") /\
  (forall g, RandomGenerator_copy other <> Ret g) /\
  (forall r, RandomGenerator_assign other this <> Ret r).
Proof. repeat split; intros; discriminate. Qed.

(* ------------------------------------------------------------------------- *)
(** ** The distance accessors *)

Section Accessors.

Context {A : Type} {RT : RealType A}.

Local Open Scope num_scope.

(** C1, as the code has it. The four unscaled getters check nothing: in
    every state of the object, compared or not, each returns the member as it
    is (getKSDist the same member as getLInfDist). The scaled accessors
    throw before computePDFdistTo has run on the object, and return the
    member times the sample-size factor after it. *)
Theorem distance_accessors (this other : ProbDistributionFunction1D A) :
  (call_getter getL2Dist (base this) = Ret (_L2Dist (base this)) /\
   call_getter getLInfDist (base this) = Ret (_LInfDist (base this)) /\
   call_getter getKSDist (base this) = Ret (_LInfDist (base this)) /\
   call_getter getCvMDist (base this) = Ret (_CvMDist (base this))) /\
  (compared (base this) = false ->
   getScaledKSDistanceTo this other = Throw PreconditionViolation /\
   getScaledCvMDistanceTo this other = Throw PreconditionViolation /\
   getScaledL2DistanceTo this other = Throw PreconditionViolation) /\
  (forall distances,
      let this' := computePDFdistTo distances other this in
      let factor := scale_factor (numSamples (base this)) (numSamples (base other)) in
      getScaledKSDistanceTo this' other = Ret (factor * getKSDist (base this')) /\
      getScaledCvMDistanceTo this' other = Ret (factor * getCvMDist (base this')) /\
      getScaledL2DistanceTo this' other = Ret (factor * getL2Dist (base this'))).
Proof.
  split; [repeat split|]. split.
  - intros H.
    unfold getScaledKSDistanceTo, AnyD_getScaledKSDistanceTo,
      getScaledCvMDistanceTo, getScaledL2DistanceTo, scaled_distance.
    rewrite H. repeat split.
  - intros distances.
    unfold computePDFdistTo.
    destruct (distances (_pdf this) (_pdf other)) as [[l2 linf] cvm].
    repeat split.
Qed.

End Accessors.

(** C1 as it is worded fails: on an object on which computePDFdistTo has not
    run, the four unscaled getters return the members (here 0) and throw
    nothing. *)
Lemma unscaled_getters_do_not_throw :
  let p : ProbDistributionFunctionAnyD float :=
    {| _nSamples := 8; _L2Dist := 0%float; _LInfDist := 0%float;
       _CvMDist := 0%float; compared := false |} in
  compared p = false /\
  call_getter getL2Dist p = Ret 0%float /\
  call_getter getLInfDist p = Ret 0%float /\
  call_getter getKSDist p = Ret 0%float /\
  call_getter getCvMDist p = Ret 0%float /\
  call_getter getL2Dist p <> Throw PreconditionViolation.
Proof. cbv zeta. repeat split. discriminate. Qed.

(** On an object built from the histogram {1:3, 2:5} and not compared yet,
    the scaled accessors throw. *)
Lemma distance_accessors_witness :
  getScaledKSDistanceTo (RT := Double.double)
    {| base := {| _nSamples := 8; _L2Dist := 0%float; _LInfDist := 0%float;
                  _CvMDist := 0%float; compared := false |};
       _pdf := [(1%float, 0.375%float); (2%float, 1%float)] |}
    {| base := {| _nSamples := 8; _L2Dist := 0%float; _LInfDist := 0%float;
                  _CvMDist := 0%float; compared := false |};
       _pdf := [(1%float, 0.375%float); (2%float, 1%float)] |}
  = Throw PreconditionViolation.
Proof.
  exact (proj1 (proj1 (proj2 (distance_accessors (RT := Double.double)
           {| base := {| _nSamples := 8; _L2Dist := 0%float; _LInfDist := 0%float;
                         _CvMDist := 0%float; compared := false |};
              _pdf := [(1%float, 0.375%float); (2%float, 1%float)] |}
           {| base := {| _nSamples := 8; _L2Dist := 0%float; _LInfDist := 0%float;
                         _CvMDist := 0%float; compared := false |};
              _pdf := [(1%float, 0.375%float); (2%float, 1%float)] |}))
         eq_refl)).
Defined.

(* ------------------------------------------------------------------------- *)
(** ** PRNGForGivenDistr1D: the anchor and the monotonic table *)

Section InverseCDFFacts.

Context {A : Type} {RT : RealType A}.
Variable increases : A -> A -> bool.
Variable seed_words : Z -> list Z.

Local Open Scope num_scope.

(** An assignment at a key below the first key puts a new first entry. *)
Lemma map_assign_below (k v k' v' : A) (m : std_map A) :
  (k <? k') = true ->
  map_assign k v ((k', v') :: m) = (k, v) :: (k', v') :: m.
Proof. intros H. simpl. now rewrite H. Qed.

(** After [m[k] = v], the map has [v] at [k]. *)
Lemma map_find_assign (k v : A) (m : std_map A) :
  (forall x : A, (x <? x) = false) ->
  map_find k (map_assign k v m) = Some v.
Proof.
  intros Hirr. induction m as [|[k' v'] m IH]; cbn [map_assign].
  - cbn [map_find]. now rewrite Hirr.
  - destruct (k <? k') eqn:E1.
    + cbn [map_find]. now rewrite Hirr.
    + destruct (k' <? k) eqn:E2; cbn [map_find]; now rewrite E1, E2.
Qed.

(** A new first entry does not make a table monotonic. *)
Lemma isMonotonic_tail (e : A * A) (m : std_map A) :
  isMonotonic increases m = false -> isMonotonic increases (e :: m) = false.
Proof.
  destruct e as [k v]. destruct m as [|[k' v'] m]; [discriminate|].
  intros H. cbn [isMonotonic] in *. rewrite H. apply andb_false_r.
Qed.

Lemma init_invert (GivenDistr : ProbDistributionFunction1D A) (pdf : std_map A) :
  init_table GivenDistr = Some pdf ->
  init increases GivenDistr
  = Some (if isMonotonic increases pdf
          then Ret {| _vals := inverted pdf |}
          else Throw PreconditionViolation).
Proof. intros H. unfold init. now rewrite H. Qed.


End InverseCDFFacts.

(** Over the real numbers the anchor is always below the first key. *)
Lemma real_anchor_below (v : R) :
  num_ltb (num_sub v (num_lit 1.0e-6)) v = true.
Proof.
  cbn [num_ltb num_sub num_lit RealNumbers.real].
  apply RealFacts.ltb_true. unfold Q2R; simpl. lra.
Qed.



(* ------------------------------------------------------------------------- *)
(** ** Runs on binary64 *)

(** [LnFac ( 10 )] on the table as it is before the first call: the table is
    built, and the entry is ln(3628800) = 15.104412573075516 to the last
    place but one; [LnFac ( 150 )] is ln(150!) = 605.0201058494237 likewise. *)
Example LnFac_double_10 :
  match LnFac (A := float) 10 LnFacStatic_init with
  | Ret (v, st) =>
      PrimFloat.ltb (PrimFloat.abs (v - 0x1.e357590954d14p+3))%float 0x1p-48
      && initialized st
  | _ => false
  end = true.
Proof. vm_compute. reflexivity. Qed.

Example LnFac_double_150 :
  match LnFac (A := float) 150 LnFacStatic_init with
  | Ret (v, st) =>
      PrimFloat.ltb (PrimFloat.abs (v - 0x1.2e8292d416ddep+9))%float 0x1p-40
      && negb (initialized st)
  | _ => false
  end = true.
Proof. vm_compute. reflexivity. Qed.

(* ------------------------------------------------------------------------- *)
(** ** The histograms of ProbDistFuncHelper *)

Section KeyedMapFacts.

Variable K : Type.
Variable key_ltb : K -> K -> bool.

Local Abbreviation modify := (map_modify K key_ltb).
Local Abbreviation count := (map_count K key_ltb).
Local Abbreviation asc := (ascending K key_ltb).
Local Abbreviation eqv := (equivalent K key_ltb).

(** The first key of a changed map is the changed key or the first key there
    was. *)
Lemma map_modify_first (f : Z -> Z) (k : K) (m : histogram K) (lo : K) :
  key_ltb lo k = true ->
  match m with [] => True | (k', _) :: _ => key_ltb lo k' = true end ->
  match modify f k m with [] => True | (k', _) :: _ => key_ltb lo k' = true end.
Proof.
  intros Hk Hm. destruct m as [|[k' v'] m]; cbn [map_modify]; [exact Hk|].
  destruct (key_ltb k k'); [exact Hk|].
  destruct (key_ltb k' k); exact Hm.
Qed.

(** A change of an entry keeps the keys strictly ascending. *)
Lemma map_modify_ascending (f : Z -> Z) (k : K) (m : histogram K) :
  asc m -> asc (modify f k m).
Proof.
  induction m as [|[k' v'] m IH]; intros Hasc; cbn [map_modify].
  - exact I.
  - destruct (key_ltb k k') eqn:E1.
    + cbn [ascending]. split; assumption.
    + destruct (key_ltb k' k) eqn:E2.
      * assert (Hm : asc m) by (destruct m as [|[k2 v2] m]; [exact I | apply Hasc]).
        specialize (IH Hm).
        pose proof (map_modify_first f k m k' E2) as Hfirst.
        destruct (modify f k m) as [|[k3 v3] m3] eqn:E3; [exact I|].
        cbn [ascending]. split; [|exact IH].
        apply Hfirst. destruct m as [|[k2 v2] m]; [exact I | apply Hasc].
      * destruct m as [|[k2 v2] m]; [exact I | exact Hasc].
Qed.

(** The sum of the counts after [m[k] += h], when no count wraps around. *)
Lemma total_modify_add (h : Z) (k : K) (m : histogram K) :
  Forall (fun e => 0 <= snd e) m -> 0 <= h -> total K m + h < 2 ^ 32 ->
  total K (modify (fun c => uint (c + h)) k m) = total K m + h /\
  Forall (fun e => 0 <= snd e) (modify (fun c => uint (c + h)) k m).
Proof.
  intros Hpos Hh. induction Hpos as [|[k' v'] m Hv Hpos IH]; intros Hsum;
    cbn [map_modify].
  - unfold total, uint in *. cbn [fold_right snd] in *.
    rewrite Z.mod_small by lia. split; [lia|].
    constructor; [cbn [snd]; lia | constructor].
  - assert (Htot : 0 <= total K m).
    { clear - Hpos. induction Hpos as [|e m He Hpos IH]; unfold total in *;
        cbn [fold_right]; lia. }
    unfold total in Hsum, Htot, IH. cbn [fold_right snd] in Hsum, Hv.
    destruct (key_ltb k k').
    + unfold total, uint. cbn [fold_right snd].
      rewrite Z.mod_small by lia. split; [lia|].
      repeat constructor; cbn [snd]; try lia. exact Hpos.
    + destruct (key_ltb k' k).
      * destruct IH as [IHt IHp]; [lia|].
        unfold total in *. cbn [fold_right snd]. rewrite IHt.
        split; [lia|]. constructor; [exact Hv | exact IHp].
      * unfold total, uint. cbn [fold_right snd].
        rewrite Z.mod_small by lia. split; [lia|].
        constructor; [cbn [snd]; lia | exact Hpos].
Qed.

Lemma total_nonneg (m : histogram K) :
  Forall (fun e => 0 <= snd e) m -> 0 <= total K m.
Proof.
  induction 1 as [|e m He Hm IH]; unfold total in *; cbn [fold_right]; lia.
Qed.

Lemma filter_length_le {X} (p : X -> bool) (l : list X) :
  (List.length (filter p l) <= List.length l)%nat.
Proof.
  induction l as [|x l IH]; cbn [filter List.length]; [lia|].
  destruct (p x); cbn [List.length]; lia.
Qed.

(** The loop of the sample counters from any histogram: ascending keys, kept
    keys and non-negative counts stay, and the sum of the counts grows by
    the number of kept samples. *)
Lemma counting_loop_total (keep : K -> bool) (l : list K) :
  forall acc : histogram K,
    asc acc -> Forall (fun e => 0 <= snd e) acc ->
    Forall (fun e => keep (fst e) = true) acc ->
    total K acc + Z.of_nat (List.length l) < 2 ^ 32 ->
    let r := fold_left
               (fun H s => if keep s then modify (fun c => uint (c + 1)) s H else H)
               l acc in
    asc r /\ Forall (fun e => 0 <= snd e) r /\
    Forall (fun e => keep (fst e) = true) r /\
    total K r = total K acc + Z.of_nat (List.length (filter keep l)).
Proof.
  induction l as [|s l IH]; intros acc Hasc Hpos Hkept Hlen; cbv zeta;
    cbn [fold_left filter].
  - cbn [List.length]. repeat split; auto.
    change (Z.of_nat 0) with 0. now rewrite Z.add_0_r.
  - cbn [List.length] in Hlen.
    destruct (keep s) eqn:Es.
    + destruct (total_modify_add 1 s acc Hpos) as [Ht Hp]; [lia | lia | ].
      assert (Hasc' : asc (modify (fun c => uint (c + 1)) s acc))
        by now apply map_modify_ascending.
      assert (Hkept' : Forall (fun e => keep (fst e) = true)
                         (modify (fun c => uint (c + 1)) s acc)).
      { clear - Hkept Es. induction Hkept as [|[k' v'] m Hk' Hm IH];
          cbn [map_modify].
        - repeat constructor. exact Es.
        - destruct (key_ltb s k'); [repeat constructor; assumption|].
          destruct (key_ltb k' s); constructor; assumption. }
      assert (Hlen' : total K (modify (fun c => uint (c + 1)) s acc)
                      + Z.of_nat (List.length l) < 2 ^ 32)
        by (rewrite Ht; lia).
      destruct (IH _ Hasc' Hp Hkept' Hlen') as (R1 & R2 & R3 & R4).
      repeat split; auto. rewrite R4, Ht. cbn [List.length]. lia.
    + assert (Hlen' : total K acc + Z.of_nat (List.length l) < 2 ^ 32) by lia.
      destruct (IH _ Hasc Hpos Hkept Hlen') as (R1 & R2 & R3 & R4).
      repeat split; auto.
Qed.

(** The loop of vecHistoToHisto from any histogram, when no count wraps
    around: the keys stay ascending and the sum of the counts grows by the
    sum of the [h]. *)
Lemma adding_loop_total (l : list (K * Z)) :
  forall acc : histogram K,
    asc acc -> Forall (fun e => 0 <= snd e) acc ->
    Forall (fun xh => 0 <= snd xh) l ->
    total K acc + fold_right (fun xh w => snd xh + w) 0 l < 2 ^ 32 ->
    let r := fold_left
               (fun H xh => modify (fun c => uint (c + snd xh)) (fst xh) H) l acc in
    asc r /\ Forall (fun e => 0 <= snd e) r /\
    total K r = total K acc + fold_right (fun xh w => snd xh + w) 0 l.
Proof.
  induction l as [|[x h] l IH]; intros acc Hasc Hpos Hl Hsum; cbv zeta;
    cbn [fold_left fold_right fst snd] in *.
  - repeat split; auto. now rewrite Z.add_0_r.
  - inversion Hl as [|? ? Hh Hl']; subst. cbn [snd] in Hh.
    assert (Hrest : 0 <= fold_right (fun xh w => snd xh + w) 0 l).
    { clear - Hl'. induction Hl' as [|e m He Hm IH]; cbn [fold_right]; lia. }
    destruct (total_modify_add h x acc Hpos) as [Ht Hp]; [lia | lia | ].
    assert (Hasc' : asc (modify (fun c => uint (c + h)) x acc))
      by now apply map_modify_ascending.
    assert (Hsum' : total K (modify (fun c => uint (c + h)) x acc)
                    + fold_right (fun xh w => snd xh + w) 0 l < 2 ^ 32)
      by (rewrite Ht; lia).
    destruct (IH _ Hasc' Hp Hl' Hsum') as (R1 & R2 & R3).
    repeat split; auto. rewrite R3, Ht. lia.
Qed.

(** An assignment at a key above all the keys adds the last entry. *)
Lemma map_modify_above (f : Z -> Z) (k : K) (m : histogram K) :
  Forall (fun e => key_ltb (fst e) k = true /\ key_ltb k (fst e) = false) m ->
  modify f k m = m ++ [(k, f 0)].
Proof.
  induction 1 as [|[k' v'] m [H1 H2] Hm IH]; cbn [map_modify app]; [reflexivity|].
  cbn [fst] in H1, H2. now rewrite H2, H1, IH.
Qed.

Section StrictWeakOrder.

(** The keys that come up ([ok]) are in a strict weak order: [<] is
    transitive on them, and a key between which and [x] or [y] it does not
    decide lies on one side of [x < y]. *)
Variable ok : K -> Prop.
Hypothesis lt_trans : forall x y z, ok x -> ok y -> ok z ->
  key_ltb x y = true -> key_ltb y z = true -> key_ltb x z = true.
Hypothesis lt_between : forall x y z, ok x -> ok y -> ok z ->
  key_ltb x y = true -> key_ltb x z = true \/ key_ltb z y = true.

Lemma map_modify_ok (f : Z -> Z) (k : K) (m : histogram K) :
  ok k -> Forall (fun e => ok (fst e)) m ->
  Forall (fun e => ok (fst e)) (modify f k m).
Proof.
  intros Hk Hm. induction Hm as [|[k' v'] m Hk' Hm IH]; cbn [map_modify].
  - repeat constructor. exact Hk.
  - destruct (key_ltb k k'); [repeat constructor; assumption|].
    destruct (key_ltb k' k); constructor; assumption.
Qed.

(** What [find] sees after a change of [m[s]]: the changed count at the keys
    equivalent to [s], the count there was at every other key. *)
Lemma map_count_modify (f : Z -> Z) (s k : K) (m : histogram K) :
  ok s -> ok k -> Forall (fun e => ok (fst e)) m ->
  count k (modify f s m)
  = if eqv s k then f (count k m) else count k m.
Proof.
  intros Hs Hk Hm. unfold equivalent.
  induction Hm as [|[k' v'] m Hk' Hm IH]; cbn [map_modify map_count].
  - destruct (key_ltb k s) eqn:Eks; [now rewrite andb_false_r|].
    destruct (key_ltb s k) eqn:Esk; reflexivity.
  - cbn [fst] in Hk'.
    destruct (key_ltb s k') eqn:Esk'.
    + cbn [map_count].
      destruct (key_ltb k s) eqn:Eks.
      * rewrite andb_false_r.
        now rewrite (lt_trans k s k' Hk Hs Hk' Eks Esk').
      * destruct (key_ltb s k) eqn:Esk; cbn [negb andb]; [reflexivity|].
        destruct (lt_between s k' k Hs Hk' Hk Esk') as [C|C]; [congruence|].
        now rewrite C.
    + destruct (key_ltb k' s) eqn:Ek's; cbn [map_count].
      * destruct (key_ltb k k') eqn:Ekk'.
        -- rewrite (lt_trans k k' s Hk Hk' Hs Ekk' Ek's).
           now rewrite andb_false_r.
        -- destruct (key_ltb k' k) eqn:Ek'k; [exact IH|].
           destruct (lt_between k' s k Hk' Hs Hk Ek's) as [C|C]; [congruence|].
           now rewrite C, andb_false_r.
      * destruct (key_ltb k k') eqn:Ekk'.
        -- destruct (lt_between k k' s Hk Hk' Hs Ekk') as [C|C]; [|congruence].
           now rewrite C, andb_false_r.
        -- destruct (key_ltb k' k) eqn:Ek'k.
           ++ destruct (lt_between k' k s Hk' Hk Hs Ek'k) as [C|C]; [congruence|].
              now rewrite C.
           ++ destruct (key_ltb s k) eqn:Esk.
              { destruct (lt_between s k k' Hs Hk Hk' Esk); congruence. }
              destruct (key_ltb k s) eqn:Eks.
              { destruct (lt_between k s k' Hk Hs Hk' Eks); congruence. }
              reflexivity.
Qed.

(** The loop [for each s: if ( keep ( s ) ) ++( m[s] )] of the sample
    counters, on the kept keys in a strict weak order: what [find] sees at a
    kept key afterwards. *)
Lemma counting_loop_count (keep : K -> bool) (k : K) (l : list K) :
  (forall x, keep x = true -> ok x) -> ok k ->
  forall acc : histogram K,
    Forall (fun e => ok (fst e)) acc ->
    0 <= count k acc < 2 ^ 32 ->
    count k (fold_left
               (fun H s => if keep s then modify (fun c => uint (c + 1)) s H else H)
               l acc)
    = uint (count k acc
            + Z.of_nat (List.length (filter (fun s => keep s && eqv s k) l))).
Proof.
  intros Hkeep Hk. induction l as [|s l IH]; intros acc Hacc Hc;
    cbn [fold_left filter].
  - cbn [List.length]. change (Z.of_nat 0) with 0.
    unfold uint. rewrite Z.add_0_r, Z.mod_small; lia.
  - destruct (keep s) eqn:Es; cbn [andb].
    + assert (Hs : ok s) by now apply Hkeep.
      rewrite IH.
      * rewrite (map_count_modify _ s k acc Hs Hk Hacc).
        destruct (eqv s k); cbn [List.length].
        -- unfold uint. rewrite Zplus_mod_idemp_l. f_equal. lia.
        -- reflexivity.
      * now apply map_modify_ok.
      * rewrite (map_count_modify _ s k acc Hs Hk Hacc).
        destruct (eqv s k); [|exact Hc].
        unfold uint. apply Z.mod_pos_bound. lia.
    + now apply IH.
Qed.

(** The loop [for each (x, h): m[x] += h] of vecHistoToHisto likewise: the
    count at [k] grows by the [h] of the [x] equivalent to [k]. *)
Lemma adding_loop_count (k : K) (l : list (K * Z)) :
  ok k -> Forall (fun xh => ok (fst xh)) l ->
  forall acc : histogram K,
    Forall (fun e => ok (fst e)) acc ->
    0 <= count k acc < 2 ^ 32 ->
    count k (fold_left (fun H xh => modify (fun c => uint (c + snd xh)) (fst xh) H)
               l acc)
    = uint (count k acc
            + fold_right (fun xh w => if eqv (fst xh) k then snd xh + w else w) 0 l).
Proof.
  intros Hk Hl. induction Hl as [|[x h] l Hx Hl IH]; intros acc Hacc Hc;
    cbn [fold_left fold_right fst snd].
  - unfold uint. rewrite Z.add_0_r, Z.mod_small; lia.
  - cbn [fst] in Hx. rewrite IH.
    + rewrite (map_count_modify _ x k acc Hx Hk Hacc).
      destruct (eqv x k).
      * unfold uint. rewrite Zplus_mod_idemp_l. f_equal. lia.
      * reflexivity.
    + now apply map_modify_ok.
    + rewrite (map_count_modify _ x k acc Hx Hk Hacc).
      destruct (eqv x k); [|exact Hc].
      unfold uint. apply Z.mod_pos_bound. lia.
Qed.

End StrictWeakOrder.

End KeyedMapFacts.

(** *** The order of the finite numbers of binary64 *)

Lemma SFcompare_Lt_between (x y z : spec_float) :
  z <> S754_nan ->
  SFcompare x y = Some Lt ->
  SFcompare x z = Some Lt \/ SFcompare z y = Some Lt.
Proof.
  destruct x as [sx|sx| |sx mx ex], y as [sy|sy| |sy my ey], z as [sz|sz| |sz mz ez];
    try destruct sx; try destruct sy; try destruct sz; simpl;
    try discriminate; try congruence; intros Hz Hxy; auto;
    repeat match goal with
      | H : context [Z.compare ?a ?b] |- _ => destruct (Z.compare_spec a b)
      | H : context [Pos.compare_cont Eq ?a ?b] |- _ =>
          change (Pos.compare_cont Eq a b) with (Pos.compare a b) in H;
          destruct (Pos.compare_spec a b)
      end; subst; simpl in *; try discriminate;
    repeat match goal with
      | |- context [Z.compare ?a ?b] => destruct (Z.compare_spec a b)
      | |- context [Pos.compare_cont Eq ?a ?b] =>
          change (Pos.compare_cont Eq a b) with (Pos.compare a b);
          destruct (Pos.compare_spec a b)
      end; subst; simpl in *; auto; try lia.
Qed.

Lemma double_lt_trans (x y z : float) :
  PrimFloat.ltb x y = true -> PrimFloat.ltb y z = true -> PrimFloat.ltb x z = true.
Proof.
  rewrite !DoubleFacts.ltb_SFcompare. apply DoubleFacts.SFcompare_Lt_trans.
Qed.

Lemma double_lt_between (x y z : float) :
  double_isFinite z = true ->
  PrimFloat.ltb x y = true ->
  PrimFloat.ltb x z = true \/ PrimFloat.ltb z y = true.
Proof.
  intros Hz. rewrite !DoubleFacts.ltb_SFcompare. apply SFcompare_Lt_between.
  unfold double_isFinite in Hz. destruct (Prim2SF z); congruence.
Qed.

Lemma real_lt_between (x y z : R) :
  RealNumbers.ltb x y = true ->
  RealNumbers.ltb x z = true \/ RealNumbers.ltb z y = true.
Proof.
  rewrite !RealFacts.ltb_true. intros H.
  destruct (Rlt_dec x z) as [Hxz|Hxz]; [now left | right; lra].
Qed.

Section HistogramFacts.

Context {A : Type} {RT : RealType A}.
Variable isFinite : A -> bool.

Local Open Scope num_scope.

(** X1. samplesToHisto1D, for fewer than 2^32 samples: the keys of the
    histogram are finite and strictly ascending, no count is negative, and
    the counts add up to the number of finite samples, the non-finite ones
    being left out; what the histogram held before does not matter. *)
Theorem samplesToHisto1D_total (Samples : list A) (Histogram : histogram A) :
  (Z.of_nat (List.length Samples) < 2 ^ 32)%Z ->
  let H := samplesToHisto1D isFinite Samples Histogram in
  ascending A num_ltb H /\
  Forall (fun e => isFinite (fst e) = true /\ (0 <= snd e)%Z) H /\
  total A H = Z.of_nat (List.length (filter isFinite Samples)) /\
  H = samplesToHisto1D isFinite Samples [].
Proof.
  intros Hlen H.
  assert (Hlen' : (total A [] + Z.of_nat (List.length Samples) < 2 ^ 32)%Z)
    by (unfold total; cbn [fold_right]; lia).
  destruct (counting_loop_total A num_ltb isFinite Samples []
              I (Forall_nil _) (Forall_nil _) Hlen')
    as (R1 & R2 & R3 & R4).
  unfold total in R4 at 2. cbn [fold_right] in R4.
  repeat split; auto.
  apply Forall_forall. intros e He. split.
  - exact (proj1 (Forall_forall _ _) R3 e He).
  - exact (proj1 (Forall_forall _ _) R2 e He).
Qed.

Section Counts.

(** [<] is a strict weak order on the finite values. *)
Hypothesis lt_trans : forall x y z : A,
  isFinite x = true -> isFinite y = true -> isFinite z = true ->
  (x <? y) = true -> (y <? z) = true -> (x <? z) = true.
Hypothesis lt_between : forall x y z : A,
  isFinite x = true -> isFinite y = true -> isFinite z = true ->
  (x <? y) = true -> (x <? z) = true \/ (z <? y) = true.

(** X2. What samplesToHisto1D counts: at a finite key [k] the histogram
    holds the number of finite samples equivalent to [k] (as an
    [unsigned int]; the number itself for fewer than 2^32 samples), and so
    0, no entry, where no sample is equivalent to [k]. *)
Theorem samplesToHisto1D_counts (Samples : list A) (Histogram : histogram A) (k : A) :
  isFinite k = true ->
  map_count A num_ltb k (samplesToHisto1D isFinite Samples Histogram)
  = uint (occurrences isFinite k Samples) /\
  ((Z.of_nat (List.length Samples) < 2 ^ 32)%Z ->
   map_count A num_ltb k (samplesToHisto1D isFinite Samples Histogram)
   = occurrences isFinite k Samples).
Proof.
  intros Hk.
  assert (E : map_count A num_ltb k (samplesToHisto1D isFinite Samples Histogram)
              = uint (occurrences isFinite k Samples)).
  { unfold samplesToHisto1D, occurrences.
    assert (H0 : (0 <= map_count A num_ltb k [] < 2 ^ 32)%Z)
      by (cbn [map_count]; lia).
    rewrite (counting_loop_count A num_ltb (fun x => isFinite x = true)
               lt_trans lt_between isFinite k Samples (fun x Hx => Hx) Hk
               [] (Forall_nil _) H0).
    reflexivity. }
  split; [exact E|]. intros Hlen. rewrite E. unfold uint.
  apply Z.mod_small. unfold occurrences.
  pose proof (filter_length_le
                (fun s => isFinite s && equivalent A num_ltb s k) Samples).
  lia.
Qed.

End Counts.

(** X3. discreteHistoToHisto, when the conversions of the indices to the
    RealType are strictly increasing: the histogram has one entry for each
    index [i], in the order of the indices, with the key [i] converted and
    the count [DiscreteHisto[i]]; the counts read off in order are
    [DiscreteHisto] again, and nothing of the histogram passed in is left. *)
Theorem discreteHistoToHisto_entries (DiscreteHisto : list Z)
    (Histogram : histogram A) :
  (forall i j : nat, (i < j < List.length DiscreteHisto)%nat ->
     (num_of_Z (Z.of_nat i) <? num_of_Z (Z.of_nat j)) = true /\
     (num_of_Z (Z.of_nat j) <? num_of_Z (Z.of_nat i)) = false) ->
  let H := discreteHistoToHisto DiscreteHisto Histogram in
  H = map (fun i => (num_of_Z (Z.of_nat i), nth i DiscreteHisto 0%Z))
        (seq 0 (List.length DiscreteHisto)) /\
  map snd H = DiscreteHisto /\
  ascending A num_ltb H.
Proof.
  intros Hmono H. subst H. unfold discreteHistoToHisto.
  set (g := fun i : nat => (num_of_Z (A := A) (Z.of_nat i), nth i DiscreteHisto 0%Z)).
  set (step := fun (H : histogram A) (i : nat) =>
                 map_modify A num_ltb (fun _ => nth i DiscreteHisto 0%Z)
                   (num_of_Z (Z.of_nat i)) H).
  assert (Hloop : forall n a, (a + n <= List.length DiscreteHisto)%nat ->
            fold_left step (seq a n) (map g (seq 0 a)) = map g (seq 0 (a + n))).
  { induction n as [|n IH]; intros a Ha; cbn [seq fold_left].
    - now rewrite Nat.add_0_r.
    - unfold step at 2. rewrite map_modify_above.
      + change (fold_left step (seq (S a) n) (map g (seq 0 a) ++ map g [a])
                = map g (seq 0 (a + S n))).
        rewrite <- map_app, <- seq_S.
        rewrite IH by lia. do 2 f_equal. lia.
      + apply Forall_forall. intros e He.
        apply in_map_iff in He. destruct He as (i & <- & Hi).
        apply in_seq in Hi. cbn [fst g]. apply Hmono. lia. }
  assert (E : fold_left step (seq 0 (List.length DiscreteHisto)) []
              = map g (seq 0 (List.length DiscreteHisto))).
  { exact (Hloop (List.length DiscreteHisto) O (Nat.le_refl _)). }
  rewrite E. split; [reflexivity|]. split.
  - rewrite map_map. unfold g. cbn [snd].
    clear. induction DiscreteHisto as [|x D IH]; [reflexivity|].
    cbn [List.length seq map nth]. f_equal.
    rewrite <- seq_shift, map_map. exact IH.
  - rewrite <- E.
    generalize (seq 0 (List.length DiscreteHisto)).
    assert (Hasc : ascending A num_ltb []) by exact I.
    revert Hasc. generalize (@nil (A * Z)).
    intros acc Hacc l. revert acc Hacc.
    induction l as [|i l IH]; intros acc Hacc; cbn [fold_left]; [exact Hacc|].
    apply IH. unfold step. now apply map_modify_ascending.
Qed.

Lemma combine_sum (Xvalues : list A) (Hvalues : list Z) :
  List.length Xvalues = List.length Hvalues ->
  fold_right (fun (xh : A * Z) w => (snd xh + w)%Z) 0%Z (combine Xvalues Hvalues)
  = fold_right Z.add 0%Z Hvalues.
Proof.
  revert Hvalues. induction Xvalues as [|x X IH]; intros [|h Hv] Hlen;
    try discriminate; [reflexivity|].
  cbn [combine fold_right snd]. f_equal. apply IH.
  cbn [List.length] in Hlen. congruence.
Qed.

Lemma combine_nonneg (Xvalues : list A) (Hvalues : list Z) :
  Forall (fun h => (0 <= h)%Z) Hvalues ->
  Forall (fun xh : A * Z => (0 <= snd xh)%Z) (combine Xvalues Hvalues).
Proof.
  intros HH. revert Xvalues. induction HH as [|h Hv Hh HH IH]; intros [|x X];
    cbn [combine]; constructor; auto.
Qed.

(** X4. vecHistoToHisto throws "Vector size mismatch." exactly when the two
    vectors differ in size. Otherwise it returns, and it adds to the
    histogram it is given instead of starting from an empty one: the keys
    stay strictly ascending, and as long as no count passes 2^32 the sum of
    the counts grows by the sum of [Hvalues]. *)
Theorem vecHistoToHisto_accumulates (Xvalues : list A) (Hvalues : list Z)
    (Histogram : histogram A) :
  (vecHistoToHisto Xvalues Hvalues Histogram
     = Throw (Exception "Vector size mismatch.")
   <-> List.length Xvalues <> List.length Hvalues) /\
  (List.length Xvalues = List.length Hvalues ->
   exists H', vecHistoToHisto Xvalues Hvalues Histogram = Ret H' /\
     (ascending A num_ltb Histogram -> ascending A num_ltb H') /\
     (Forall (fun e => (0 <= snd e)%Z) Histogram ->
      Forall (fun h => (0 <= h)%Z) Hvalues ->
      (total A Histogram + fold_right Z.add 0 Hvalues < 2 ^ 32)%Z ->
      Forall (fun e => (0 <= snd e)%Z) H' /\
      total A H' = (total A Histogram + fold_right Z.add 0 Hvalues)%Z)).
Proof.
  unfold vecHistoToHisto.
  destruct (Nat.eqb_spec (List.length Xvalues) (List.length Hvalues)) as [E|E];
    cbn [negb].
  - split; [split; [discriminate | congruence]|].
    intros _. eexists. split; [reflexivity|]. split.
    + generalize (combine Xvalues Hvalues). intros l. revert Histogram.
      induction l as [|xh l IH]; intros acc Hacc; cbn [fold_left]; [exact Hacc|].
      apply IH. now apply map_modify_ascending.
    + intros Hpos HH Hsum. rewrite <- (combine_sum Xvalues Hvalues E) in Hsum |- *.
      pose proof (combine_nonneg Xvalues Hvalues HH) as Hl.
      revert Hpos Hsum. generalize Histogram. revert Hl.
      generalize (combine Xvalues Hvalues). clear.
      induction l as [|[x h] l IH]; intros Hl acc Hpos Hsum;
        cbn [fold_left fold_right fst snd] in *.
      * split; [exact Hpos | now rewrite Z.add_0_r].
      * inversion Hl as [|? ? Hh Hl']; subst. cbn [snd] in Hh.
        assert (Hrest : (0 <= fold_right (fun (xh : A * Z) w => snd xh + w) 0 l)%Z).
        { clear - Hl'. induction Hl' as [|e m He Hm IHm]; cbn [fold_right]; lia. }
        destruct (total_modify_add A num_ltb h x acc Hpos) as [Ht Hp]; [lia | lia | ].
        destruct (IH Hl' _ Hp) as [R1 R2]; [rewrite Ht; lia|].
        split; [exact R1|]. rewrite R2, Ht. lia.
  - split; [split; [intros _; exact E | reflexivity]|].
    intros E'. contradiction.
Qed.

Section VecCounts.

(** [<] is a strict weak order on the values that are keys (on all of them
    but the NaNs, for binary64). *)
Variable valid : A -> Prop.
Hypothesis lt_trans : forall x y z : A, valid x -> valid y -> valid z ->
  (x <? y) = true -> (y <? z) = true -> (x <? z) = true.
Hypothesis lt_between : forall x y z : A, valid x -> valid y -> valid z ->
  (x <? y) = true -> (x <? z) = true \/ (z <? y) = true.

(** X5. What vecHistoToHisto adds: for vectors of one size, at a key [k] the
    histogram holds afterwards what it held before plus the [Hvalues[i]] of
    all [Xvalues[i]] equivalent to [k], as an [unsigned int]; entries of
    equal [Xvalues] are summed up, and what came in with the histogram is
    kept. *)
Theorem vecHistoToHisto_counts (Xvalues : list A) (Hvalues : list Z)
    (Histogram : histogram A) (k : A) :
  List.length Xvalues = List.length Hvalues ->
  Forall valid Xvalues -> Forall (fun e => valid (fst e)) Histogram -> valid k ->
  (0 <= map_count A num_ltb k Histogram < 2 ^ 32)%Z ->
  exists H', vecHistoToHisto Xvalues Hvalues Histogram = Ret H' /\
    map_count A num_ltb k H'
    = uint (map_count A num_ltb k Histogram + weight k Xvalues Hvalues).
Proof.
  intros E HX HH Hk Hc. unfold vecHistoToHisto.
  rewrite (proj2 (Nat.eqb_eq _ _) E). cbn [negb].
  eexists. split; [reflexivity|]. unfold weight.
  apply (adding_loop_count A num_ltb valid lt_trans lt_between); auto.
  clear - HX. revert Hvalues. induction HX as [|x X Hx HX IH]; intros [|h Hv];
    cbn [combine]; constructor; auto.
Qed.

End VecCounts.

Lemma fold_left_pointwise {X Y} (f f' : X -> Y -> X) (l : list Y) :
  (forall a y, In y l -> f a y = f' a y) ->
  forall acc, fold_left f l acc = fold_left f' l acc.
Proof.
  induction l as [|y l IH]; intros Hf acc; cbn [fold_left]; [reflexivity|].
  rewrite Hf by now left. apply IH. intros a y' Hy'. apply Hf. now right.
Qed.

(** The loop over the indices of two vectors of one size is the loop over
    the pairs of their entries. *)
Lemma fold_indices_pairs {X} (F : A -> A -> X -> X) (xs : list A) :
  forall (ys : list A) (acc : X),
    List.length ys = List.length xs ->
    fold_left (fun H i => F (nth i xs num_zero) (nth i ys num_zero) H)
      (seq 0 (List.length xs)) acc
    = fold_left (fun H p => F (fst p) (snd p) H) (combine xs ys) acc.
Proof.
  induction xs as [|x xs IH]; intros [|y ys] acc Hlen; try discriminate;
    [reflexivity|].
  cbn [List.length seq fold_left combine nth fst snd].
  rewrite <- seq_shift.
  rewrite <- (IH ys (F x y acc)) by (cbn [List.length] in Hlen; congruence).
  generalize (F x y acc). generalize (seq 0 (List.length xs)).
  induction l as [|i l IHl]; intros a; cbn [map fold_left nth]; [reflexivity|].
  apply IHl.
Qed.

Variable Pt2d_ltb : A * A -> A * A -> bool.

(** X6. samplesToHisto2D throws "Illegal MultiVector for samples" exactly
    when the MultiVector does not have two components. For two components of
    one size below 2^32 it returns a histogram with strictly ascending keys,
    each a pair of finite numbers, whose counts add up to the number of
    indices at which both components are finite; what the histogram held
    before does not matter. *)
Theorem samplesToHisto2D_total (Samples : list (list A)) (size : nat)
    (Histogram : histogram (A * A)) :
  (samplesToHisto2D isFinite Pt2d_ltb Samples size Histogram
     = Throw (Exception "Illegal MultiVector for samples")
   <-> List.length Samples <> 2%nat) /\
  (forall xs ys, Samples = [xs; ys] ->
     List.length xs = size -> List.length ys = size ->
     (Z.of_nat size < 2 ^ 32)%Z ->
     exists H', samplesToHisto2D isFinite Pt2d_ltb Samples size Histogram = Ret H' /\
       samplesToHisto2D isFinite Pt2d_ltb Samples size [] = Ret H' /\
       ascending (A * A) Pt2d_ltb H' /\
       Forall (fun e => isFinite (fst (fst e)) = true /\
                        isFinite (snd (fst e)) = true /\ (0 <= snd e)%Z) H' /\
       total (A * A) H'
       = Z.of_nat (List.length
                     (filter (fun p => isFinite (fst p) && isFinite (snd p))
                        (combine xs ys)))).
Proof.
  unfold samplesToHisto2D. split.
  - destruct (Nat.eqb_spec (List.length Samples) 2) as [E|E]; cbn [negb];
      (split; [intros H | intros H]); try discriminate; try congruence; auto.
  - intros xs ys -> Hxs Hys Hsize. cbn [List.length Nat.eqb negb nth].
    eexists. split; [reflexivity|]. split; [reflexivity|].
    set (keep := fun p : A * A => isFinite (fst p) && isFinite (snd p)).
    assert (E : fold_left
                  (fun H i =>
                     let x := nth i xs num_zero in
                     let y := nth i ys num_zero in
                     if isFinite x && isFinite y
                     then map_modify (A * A) Pt2d_ltb (fun c => uint (c + 1)) (x, y) H
                     else H) (seq 0 size) []
                = fold_left
                    (fun H p =>
                       if keep p
                       then map_modify (A * A) Pt2d_ltb (fun c => uint (c + 1)) p H
                       else H) (combine xs ys) []).
    { rewrite <- Hxs. cbv zeta.
      rewrite (fold_indices_pairs
                 (fun x y H =>
                    if isFinite x && isFinite y
                    then map_modify (A * A) Pt2d_ltb (fun c => uint (c + 1)) (x, y) H
                    else H) xs ys []) by congruence.
      apply fold_left_pointwise. intros a [x y] _. reflexivity. }
    cbv zeta in E |- *. rewrite E.
    assert (Hlen : (total (A * A) []
                    + Z.of_nat (List.length (combine xs ys)) < 2 ^ 32)%Z).
    { unfold total. cbn [fold_right]. rewrite length_combine. lia. }
    destruct (counting_loop_total (A * A) Pt2d_ltb keep (combine xs ys) []
                I (Forall_nil _) (Forall_nil _) Hlen)
      as (R1 & R2 & R3 & R4).
    unfold total in R4 at 2. cbn [fold_right] in R4.
    split; [exact R1|]. split; [|exact R4].
    apply Forall_forall. intros e He.
    pose proof (proj1 (Forall_forall _ _) R3 e He) as Hk.
    pose proof (proj1 (Forall_forall _ _) R2 e He) as Hp.
    unfold keep in Hk. apply andb_true_iff in Hk. tauto.
Qed.

End HistogramFacts.

(** Samples on binary64 with a NaN and an infinity among them, into a
    histogram that held something before: two keys, five finite samples. *)
Lemma samplesToHisto1D_total_witness :
  let Samples := [2; nan; 1; 2; infinity; 1; 2]%float in
  let H := samplesToHisto1D (RT := Double.double) double_isFinite Samples
             [(5%float, 9)] in
  H = [(1%float, 2); (2%float, 3)] /\
  ascending float PrimFloat.ltb H /\ total float H = 5.
Proof.
  cbv zeta.
  pose proof (samplesToHisto1D_total (RT := Double.double) double_isFinite
                [2; nan; 1; 2; infinity; 1; 2]%float [(5%float, 9)] eq_refl)
    as (H1 & _ & H3 & _).
  split; [reflexivity|]. split; [exact H1 | exact H3].
Defined.

(** The same samples, at the keys 2 and 3. *)
Lemma samplesToHisto1D_counts_witness :
  let Samples := [2; nan; 1; 2; infinity; 1; 2]%float in
  let H := samplesToHisto1D (RT := Double.double) double_isFinite Samples [] in
  map_count float PrimFloat.ltb 2%float H = 3 /\
  map_count float PrimFloat.ltb 3%float H = 0.
Proof.
  cbv zeta. split.
  - exact (proj2 (samplesToHisto1D_counts (RT := Double.double) double_isFinite
                    (fun x y z _ _ _ => double_lt_trans x y z)
                    (fun x y z _ _ Hz => double_lt_between x y z Hz)
                    [2; nan; 1; 2; infinity; 1; 2]%float [] 2%float eq_refl)
             eq_refl).
  - reflexivity.
Defined.

(** Over the real numbers the conversions of the indices are strictly
    increasing. *)
Lemma discreteHistoToHisto_entries_witness :
  discreteHistoToHisto (RT := RealNumbers.real) [3; 0; 5] [(7%R, 1)]
  = [(0%R, 3); (1%R, 0); (2%R, 5)].
Proof.
  refine (proj1 (discreteHistoToHisto_entries (RT := RealNumbers.real)
                   [3; 0; 5] [(7%R, 1)] _)).
  intros i j Hij.
  cbn [num_ltb num_of_Z RealNumbers.real].
  rewrite RealFacts.ltb_true, RealFacts.ltb_false.
  assert (H : (IZR (Z.of_nat i) < IZR (Z.of_nat j))%R) by (apply IZR_lt; lia).
  split; lra.
Defined.

(** Three pairs added to a histogram with the entry (1, 10) on binary64. *)
Lemma vecHistoToHisto_accumulates_witness :
  vecHistoToHisto (RT := Double.double) [1; 2; 1]%float [3; 4; 5] [(1%float, 10)]
    = Ret [(1%float, 18); (2%float, 4)] /\
  total float [(1%float, 18); (2%float, 4)] = 10 + (3 + (4 + (5 + 0))) /\
  vecHistoToHisto (RT := Double.double) [1; 2; 1]%float [3; 4] [(1%float, 10)]
    = Throw (Exception "Vector size mismatch.").
Proof.
  pose proof (vecHistoToHisto_accumulates (RT := Double.double)
                [1; 2; 1]%float [3; 4; 5] [(1%float, 10)]) as [_ H].
  destruct (H eq_refl) as (H' & E & _ & Ht).
  assert (E' : H' = [(1%float, 18); (2%float, 4)])
    by (vm_compute in E; congruence).
  subst H'. split; [exact E|]. split.
  - apply Ht; [repeat constructor; cbn; lia | repeat constructor; lia | reflexivity].
  - apply (proj1 (vecHistoToHisto_accumulates (RT := Double.double)
                    [1; 2; 1]%float [3; 4] [(1%float, 10)])).
    cbn [List.length]. lia.
Defined.

Lemma vecHistoToHisto_counts_witness :
  exists H',
    vecHistoToHisto (RT := Double.double) [1; 2; 1]%float [3; 4; 5] [(1%float, 10)]
    = Ret H' /\
    map_count float PrimFloat.ltb 1%float H' = 18.
Proof.
  apply (vecHistoToHisto_counts (RT := Double.double)
           (fun x => double_isFinite x = true)
           (fun x y z _ _ _ => double_lt_trans x y z)
           (fun x y z _ _ Hz => double_lt_between x y z Hz)
           [1; 2; 1]%float [3; 4; 5] [(1%float, 10)] 1%float).
  - reflexivity.
  - repeat constructor.
  - repeat constructor.
  - reflexivity.
  - cbn. lia.
Defined.

(** Two components of four entries on binary64, the pairs ordered by their
    first and then their second entry. *)
Lemma samplesToHisto2D_total_witness :
  let lex (p q : float * float) :=
    (PrimFloat.ltb (fst p) (fst q)
     || (PrimFloat.eqb (fst p) (fst q) && PrimFloat.ltb (snd p) (snd q)))%bool in
  samplesToHisto2D (RT := Double.double) double_isFinite lex
    [[1; 2; 1; nan]; [5; 6; 5; 7]]%float 4 []
  = Ret [((1%float, 5%float), 2); ((2%float, 6%float), 1)] /\
  samplesToHisto2D (RT := Double.double) double_isFinite lex
    [[1; 2; 1; nan]]%float 4 []
  = Throw (Exception "Illegal MultiVector for samples").
Proof.
  cbv zeta.
  pose proof (samplesToHisto2D_total (RT := Double.double) double_isFinite
    (fun p q : float * float =>
       (PrimFloat.ltb (fst p) (fst q)
        || (PrimFloat.eqb (fst p) (fst q) && PrimFloat.ltb (snd p) (snd q)))%bool))
    as T.
  split.
  - destruct (proj2 (T [[1; 2; 1; nan]; [5; 6; 5; 7]]%float 4%nat [])
                [1; 2; 1; nan]%float [5; 6; 5; 7]%float
                eq_refl eq_refl eq_refl eq_refl) as (H' & E & _).
    rewrite E. f_equal. vm_compute in E. congruence.
  - apply (proj1 (T [[1; 2; 1; nan]]%float 4%nat [])). cbn [List.length]. lia.
Defined.

(* ------------------------------------------------------------------------- *)
(** ** The samplers and the generator *)

Section LoopInvariants.

Context {St X : Type}.

(** A relation between the state before and after that every round
    establishes, and that composes, holds across a [do … while] loop. *)
Lemma do_while_rel (R : St -> St -> Prop) (body : M St X) (again : X -> bool) :
  (forall s x s', body s = Ret (x, s') -> R s s') ->
  (forall a b c, R a b -> R b c -> R a c) ->
  forall fuel s x s',
    do_while fuel body again s = Ret (x, s') -> R s s'.
Proof.
  intros Hbody Htrans. induction fuel as [|fuel IH]; intros s x s' H;
    cbn [do_while] in H; [discriminate|].
  apply bind_Ret in H. destruct H as (x0 & s0 & Hb & Hk).
  destruct (again x0).
  - eapply Htrans; [eapply Hbody; eassumption | eapply IH; eassumption].
  - unfold ret in Hk. inversion Hk; subst. eapply Hbody; eassumption.
Qed.

(** What every round of a [while ( true )] loop keeps of the state is kept
    by the loop. *)
Lemma forever_inv (P : St -> Prop) (body : M St (option X)) :
  (forall s r s', P s -> body s = Ret (r, s') -> P s') ->
  forall fuel s v s',
    P s -> forever fuel body s = Ret (v, s') ->
    P s' /\ exists s0, P s0 /\ body s0 = Ret (Some v, s').
Proof.
  intros Hbody. induction fuel as [|fuel IH]; intros s v s' Hs H;
    cbn [forever] in H; [discriminate|].
  apply bind_Ret in H. destruct H as (r & s0 & Hb & Hk).
  destruct r as [v0|].
  - unfold ret in Hk. inversion Hk; subst. split; [|eauto].
    eapply Hbody; eassumption.
  - eapply IH; [|eassumption]. eapply Hbody; eassumption.
Qed.

Lemma do_while_no_Throw (body : M St X) (again : X -> bool) :
  (forall s e, body s <> Throw e) ->
  forall fuel s e, do_while fuel body again s <> Throw e.
Proof.
  intros Hbody fuel s e H. apply do_while_Throw in H.
  destruct H as (s0 & H). now apply Hbody in H.
Qed.

Lemma bind_ret_no_Throw {Y} (m : M St X) (f : X -> Y) :
  (forall s e, m s <> Throw e) ->
  forall s e, bind m (fun x => ret (f x)) s <> Throw e.
Proof.
  intros Hm s e H. apply bind_Throw in H.
  destruct H as [H | (x & s0 & _ & H)]; [now apply Hm in H | discriminate].
Qed.

Lemma bind_ret_rel {Y} (R : St -> St -> Prop) (m : M St X) (f : X -> Y) :
  (forall s x s', m s = Ret (x, s') -> R s s') ->
  forall s y s', bind m (fun x => ret (f x)) s = Ret (y, s') -> R s s'.
Proof.
  intros Hm s y s' H. apply bind_Ret in H. destruct H as (x & s0 & Hm0 & Hk).
  unfold ret in Hk. inversion Hk; subst. eapply Hm; eassumption.
Qed.

End LoopInvariants.

Section SamplerFacts.

Context {A : Type} {RT : RealType A}.
Variable G : Type.
Variable getNextRnd : G -> Z * G.

Local Open Scope num_scope.

Local Abbreviation skip := (skip_words G getNextRnd).

(** [j] pairs of raw words further, for some [j] from [lo] on. *)
Local Abbreviation pairs_from lo g g' :=
  (exists j : nat, (lo <= j)%nat /\ g' = skip (2 * j) g).

Lemma pairs_compose (a b : nat) (g g1 g2 : G) :
  pairs_from a g g1 -> pairs_from b g1 g2 -> pairs_from (a + b) g g2.
Proof.
  intros (j1 & H1 & ->) (j2 & H2 & ->). exists (j1 + j2)%nat. split; [lia|].
  replace (2 * (j1 + j2))%nat with (2 * j1 + 2 * j2)%nat by lia.
  symmetry. apply skip_words_plus.
Qed.

Lemma pairs_trans (g g1 g2 : G) :
  pairs_from 1 g g1 -> pairs_from 1 g1 g2 -> pairs_from 1 g g2.
Proof.
  intros H1 H2. destruct (pairs_compose 1 1 g g1 g2 H1 H2) as (j & Hj & E).
  exists j. split; [lia | exact E].
Qed.

Lemma rReal_body_pairs (g : G) (v : A) (g' : G) :
  rReal_body G getNextRnd g = Ret (v, g') -> pairs_from 1 g g'.
Proof.
  unfold rReal_body, nextRnd, bind, ret.
  destruct (getNextRnd g) as [hi g1] eqn:E1.
  destruct (getNextRnd g1) as [lo g2] eqn:E2.
  intros H. inversion H; subst. exists 1%nat. split; [lia|].
  cbn [Nat.mul Nat.add skip_words]. rewrite E1. cbn [snd]. now rewrite E2.
Qed.

Lemma rReal_pairs fuel (g : G) (v : A) (g' : G) :
  rReal G getNextRnd fuel g = Ret (v, g') -> pairs_from 1 g g'.
Proof.
  apply (do_while_rel (fun g g' => pairs_from 1 g g')).
  - apply rReal_body_pairs.
  - apply pairs_trans.
Qed.

Lemma rReal_min_max_pairs fuel (min max : A) (g : G) (v : A) (g' : G) :
  rReal_min_max G getNextRnd fuel min max g = Ret (v, g') -> pairs_from 1 g g'.
Proof.
  apply (do_while_rel (fun g g' => pairs_from 1 g g')).
  - apply bind_ret_rel. apply rReal_pairs.
  - apply pairs_trans.
Qed.

Lemma rReal_max_pairs fuel (max : A) (g : G) (v : A) (g' : G) :
  rReal_max G getNextRnd fuel max g = Ret (v, g') -> pairs_from 1 g g'.
Proof.
  apply (do_while_rel (fun g g' => pairs_from 1 g g')).
  - apply bind_ret_rel. apply rReal_pairs.
  - apply pairs_trans.
Qed.

Lemma integer_min_max_pairs fuel (min max : Z) (g : G) (n : Z) (g' : G) :
  rInt_min_max G getNextRnd fuel min max g = Ret (n, g') -> pairs_from 1 g g'.
Proof.
  apply (do_while_rel (fun g g' => pairs_from 1 g g')).
  - apply bind_ret_rel. apply rReal_min_max_pairs.
  - apply pairs_trans.
Qed.

Lemma integer_max_pairs fuel (max : Z) (g : G) (n : Z) (g' : G) :
  rInt_max G getNextRnd fuel max g = Ret (n, g') -> pairs_from 1 g g'.
Proof.
  apply (do_while_rel (fun g g' => pairs_from 1 g g')).
  - apply bind_ret_rel. apply rReal_max_pairs.
  - apply pairs_trans.
Qed.

Lemma normal_body_pairs fuel (g : G) (t : A * A * A) (g' : G) :
  normal_body G getNextRnd fuel g = Ret (t, g') -> pairs_from 2 g g'.
Proof.
  unfold normal_body. intros H.
  apply bind_Ret in H. destruct H as (x1 & g1 & H1 & H).
  apply bind_Ret in H. destruct H as (x2 & g2 & H2 & H).
  unfold ret in H. inversion H; subst.
  apply rReal_min_max_pairs in H1. apply rReal_min_max_pairs in H2.
  exact (pairs_compose 1 1 g g1 g' H1 H2).
Qed.

(** X7. The raw words the samplers take: [rBool] and [rUnsignedInt ( )]
    take one word. Every other sampler that returns has taken the words in
    pairs, one pair for each attempt of [rReal ( )], however many rounds its
    loops made: a positive even number of words, and at least four for
    [normalrReal]. *)
Theorem samplers_take_word_pairs (fuel : nat) (g g' : G) :
  (forall b, rBool G getNextRnd g = Ret (b, g') -> g' = skip 1 g) /\
  (forall n, rUnsignedInt G getNextRnd g = Ret (n, g') -> g' = skip 1 g) /\
  (forall v : A, rReal G getNextRnd fuel g = Ret (v, g') -> pairs_from 1 g g') /\
  (forall (max v : A), rReal_max G getNextRnd fuel max g = Ret (v, g') ->
     pairs_from 1 g g') /\
  (forall (min max v : A),
     rReal_min_max G getNextRnd fuel min max g = Ret (v, g') ->
     pairs_from 1 g g') /\
  (forall max n, rInt_max G getNextRnd fuel max g = Ret (n, g') ->
     pairs_from 1 g g') /\
  (forall min max n, rInt_min_max G getNextRnd fuel min max g = Ret (n, g') ->
     pairs_from 1 g g') /\
  (forall max n, rUnsignedInt_max G getNextRnd fuel max g = Ret (n, g') ->
     pairs_from 1 g g') /\
  (forall min max n,
     rUnsignedInt_min_max G getNextRnd fuel min max g = Ret (n, g') ->
     pairs_from 1 g g') /\
  (forall (mean stddev v : A),
     normalrReal G getNextRnd fuel mean stddev g = Ret (v, g') ->
     pairs_from 2 g g').
Proof.
  split; [|split; [|split; [|split; [|split; [|split; [|split; [|split;
    [|split]]]]]]]].
  - intros b. unfold rBool, nextRnd, bind, ret. cbn [skip_words].
    destruct (getNextRnd g) as [w g1]. intros H. now inversion H.
  - intros n. unfold rUnsignedInt, nextRnd. cbn [skip_words].
    destruct (getNextRnd g) as [w g1]. intros H. now inversion H.
  - intros v. apply rReal_pairs.
  - intros max v. apply rReal_max_pairs.
  - intros min max v. apply rReal_min_max_pairs.
  - intros max n. apply integer_max_pairs.
  - intros min max n. apply integer_min_max_pairs.
  - intros max n. apply integer_max_pairs.
  - intros min max n. apply integer_min_max_pairs.
  - intros mean stddev v H. unfold normalrReal in H.
    apply bind_Ret in H. destruct H as (t & g1 & H & Hk).
    unfold ret in Hk. inversion Hk; subst. revert H.
    apply (do_while_rel (fun g g' => pairs_from 2 g g')).
    + apply normal_body_pairs.
    + intros a b c Hab Hbc.
      destruct (pairs_compose 2 2 a b c Hab Hbc) as (j & Hj & E).
      exists j. split; [lia | exact E].
Qed.

Lemma rReal_max_no_Throw fuel (max : A) g e :
  rReal_max G getNextRnd fuel max g <> Throw e.
Proof.
  apply do_while_no_Throw. apply bind_ret_no_Throw.
  intros s e0. apply rReal_no_Throw.
Qed.

Lemma rReal_min_max_no_Throw fuel (min max : A) g e :
  rReal_min_max G getNextRnd fuel min max g <> Throw e.
Proof.
  apply do_while_no_Throw. apply bind_ret_no_Throw.
  intros s e0. apply rReal_no_Throw.
Qed.

Lemma integer_max_no_Throw fuel (max : Z) g e :
  rInt_max G getNextRnd fuel max g <> Throw e.
Proof.
  apply do_while_no_Throw. apply bind_ret_no_Throw.
  intros s e0. apply rReal_max_no_Throw.
Qed.

Lemma integer_min_max_no_Throw fuel (min max : Z) g e :
  rInt_min_max G getNextRnd fuel min max g <> Throw e.
Proof.
  apply do_while_no_Throw. apply bind_ret_no_Throw.
  intros s e0. apply rReal_min_max_no_Throw.
Qed.

(** X8. No sampler of the uniform family throws, nor does [normalrReal],
    whatever the arguments, the state of the generator and the number of
    rounds: a call returns or goes on for ever. *)
Theorem samplers_do_not_throw (fuel : nat) (g : G) (e : exn) :
  rBool G getNextRnd g <> Throw e /\
  rUnsignedInt G getNextRnd g <> Throw e /\
  rReal (A := A) G getNextRnd fuel g <> Throw e /\
  (forall max : A, rReal_max G getNextRnd fuel max g <> Throw e) /\
  (forall min max : A, rReal_min_max G getNextRnd fuel min max g <> Throw e) /\
  (forall max, rInt_max G getNextRnd fuel max g <> Throw e) /\
  (forall min max, rInt_min_max G getNextRnd fuel min max g <> Throw e) /\
  (forall max, rUnsignedInt_max G getNextRnd fuel max g <> Throw e) /\
  (forall min max, rUnsignedInt_min_max G getNextRnd fuel min max g <> Throw e) /\
  (forall mean stddev : A,
     normalrReal G getNextRnd fuel mean stddev g <> Throw e).
Proof.
  split; [|split; [|split; [|split; [|split; [|split; [|split; [|split;
    [|split]]]]]]]].
  - unfold rBool, nextRnd, bind, ret. destruct (getNextRnd g). discriminate.
  - unfold rUnsignedInt, nextRnd. discriminate.
  - apply rReal_no_Throw.
  - intros max. apply rReal_max_no_Throw.
  - intros min max. apply rReal_min_max_no_Throw.
  - intros max. apply integer_max_no_Throw.
  - intros min max. apply integer_min_max_no_Throw.
  - intros max. apply integer_max_no_Throw.
  - intros min max. apply integer_min_max_no_Throw.
  - intros mean stddev H. unfold normalrReal in H. revert H.
    apply bind_ret_no_Throw. clear g. intros g e0.
    apply do_while_no_Throw. clear g e0. intros g e0 H.
    unfold normal_body in H.
    apply bind_Throw in H. destruct H as [H | (x1 & g1 & _ & H)];
      [now apply rReal_min_max_no_Throw in H|].
    apply bind_Throw in H. destruct H as [H | (x2 & g2 & _ & H)];
      [now apply rReal_min_max_no_Throw in H | discriminate].
Qed.

Lemma not_Ret_not_Throw_Diverge {X} (o : outcome X) :
  (forall x, o <> Ret x) -> (forall e, o <> Throw e) -> o = Diverge.
Proof.
  destruct o as [x|e|]; intros HR HT;
    [now destruct (HR x) | now destruct (HT e) | reflexivity].
Qed.

(** X9. An integer sampler called with an empty range never returns:
    [rInt ( min, max )] and [rUnsignedInt ( min, max )] with max <= min, and
    [rInt ( max )] and [rUnsignedInt ( max )] with max <= 0, are still in
    their loop after any number of rounds, for every RealType and state of
    the generator. *)
Theorem integer_samplers_empty_range (fuel : nat) (g : G) :
  (forall min max : Z, (max <= min)%Z ->
     rInt_min_max G getNextRnd fuel min max g = Diverge /\
     rUnsignedInt_min_max G getNextRnd fuel min max g = Diverge) /\
  (forall max : Z, (max <= 0)%Z ->
     rInt_max G getNextRnd fuel max g = Diverge /\
     rUnsignedInt_max G getNextRnd fuel max g = Diverge).
Proof.
  split.
  - intros min max Hle.
    assert (H2 : rInt_min_max G getNextRnd fuel min max g = Diverge).
    { apply not_Ret_not_Throw_Diverge.
      - intros [n g'] H. apply checked_loop_in_rangeZ in H.
        unfold in_rangeZ in H. lia.
      - intros e. apply integer_min_max_no_Throw. }
    split; exact H2.
  - intros max Hle.
    assert (H1 : rInt_max G getNextRnd fuel max g = Diverge).
    { apply not_Ret_not_Throw_Diverge.
      - intros [n g'] H. apply checked_loop_in_rangeZ in H.
        unfold in_rangeZ in H. lia.
      - intros e. apply integer_max_no_Throw. }
    split; exact H1.
Qed.

Section EmptyRange.

(** [<=] and [<] compose, as they do for the real numbers and for binary64
    (where a comparison with a NaN is false). *)
Hypothesis leb_ltb_trans : forall x y z : A,
  (x <=? y) = true -> (y <? z) = true -> (x <? z) = true.

(** X10. A real-valued sampler does not return when [min < max] is false:
    [rReal ( min, max )] with max <= min, or with a NaN as a bound, and
    [rReal ( max )] with max <= 0 or a NaN, are still in their loop after
    any number of rounds. *)
Theorem real_samplers_empty_range (fuel : nat) (g : G) :
  (forall min max : A, (min <? max) = false ->
     rReal_min_max G getNextRnd fuel min max g = Diverge) /\
  (forall max : A, (num_zero <? max) = false ->
     rReal_max G getNextRnd fuel max g = Diverge).
Proof.
  split.
  - intros min max Hlt. apply not_Ret_not_Throw_Diverge.
    + intros [v g'] H. apply checked_loop_in_range in H.
      destruct H as [H1 H2]. rewrite (leb_ltb_trans _ _ _ H1 H2) in Hlt.
      discriminate.
    + intros e. apply rReal_min_max_no_Throw.
  - intros max Hlt. apply not_Ret_not_Throw_Diverge.
    + intros [v g'] H. apply checked_loop_in_range in H.
      destruct H as [H1 H2]. rewrite (leb_ltb_trans _ _ _ H1 H2) in Hlt.
      discriminate.
    + intros e. apply rReal_max_no_Throw.
Qed.

End EmptyRange.

End SamplerFacts.

(** On binary64 and the raw words 4294967295, 4294967295, 2147483648, 8192, 7:
    [rReal ( )] rejects its first attempt and has taken four words. *)
Lemma samplers_take_word_pairs_witness :
  rReal (RT := Double.double) Scripted.G Scripted.getNextRnd 2
    [4294967295; 4294967295; 2147483648; 8192; 7]
  = Ret (0x1.0000000000004p-1%float, [7]) /\
  exists j : nat, (1 <= j)%nat /\
    [7] = skip_words Scripted.G Scripted.getNextRnd (2 * j)
            [4294967295; 4294967295; 2147483648; 8192; 7].
Proof.
  split; [reflexivity|].
  apply (proj1 (proj2 (proj2
           (samplers_take_word_pairs (RT := Double.double)
              Scripted.G Scripted.getNextRnd 2
              [4294967295; 4294967295; 2147483648; 8192; 7] [7])))
           0x1.0000000000004p-1%float).
  reflexivity.
Defined.

(** [rInt ( 5, 5 )] and [rInt ( 0 )] on binary64. *)
Lemma integer_samplers_empty_range_witness :
  rInt_min_max (RT := Double.double) Scripted.G Scripted.getNextRnd 3 5 5
    [2147483648; 8192; 7] = Diverge /\
  rInt_max (RT := Double.double) Scripted.G Scripted.getNextRnd 3 0
    [2147483648; 8192; 7] = Diverge.
Proof.
  pose proof (integer_samplers_empty_range (RT := Double.double)
                Scripted.G Scripted.getNextRnd 3 [2147483648; 8192; 7])
    as [H2 H1].
  split; [apply (H2 5 5); lia | apply (H1 0); lia].
Defined.

Lemma double_leb_ltb_trans (x y z : float) :
  PrimFloat.leb x y = true -> PrimFloat.ltb y z = true -> PrimFloat.ltb x z = true.
Proof.
  rewrite FloatAxioms.leb_spec, !DoubleFacts.ltb_SFcompare. unfold SFleb.
  destruct (SFcompare (Prim2SF x) (Prim2SF y)) as [[]|] eqn:E; try discriminate;
    intros _ H.
  - now rewrite (DoubleFacts.SFcompare_Eq_left _ _ _ E).
  - eapply DoubleFacts.SFcompare_Lt_trans; eassumption.
Qed.

Lemma real_leb_ltb_trans (x y z : R) :
  RealNumbers.leb x y = true -> RealNumbers.ltb y z = true ->
  RealNumbers.ltb x z = true.
Proof. rewrite RealFacts.leb_true, !RealFacts.ltb_true. lra. Qed.

(** [rReal ( 2, 1 )], [rReal ( NaN, 1 )] and [rReal ( -1 )] on binary64. *)
Lemma real_samplers_empty_range_witness :
  rReal_min_max (RT := Double.double) Scripted.G Scripted.getNextRnd 3
    2%float 1%float [2147483648; 8192; 7] = Diverge /\
  rReal_min_max (RT := Double.double) Scripted.G Scripted.getNextRnd 3
    nan 1%float [2147483648; 8192; 7] = Diverge /\
  rReal_max (RT := Double.double) Scripted.G Scripted.getNextRnd 3
    (-1)%float [2147483648; 8192; 7] = Diverge.
Proof.
  pose proof (real_samplers_empty_range (RT := Double.double)
                Scripted.G Scripted.getNextRnd double_leb_ltb_trans
                3 [2147483648; 8192; 7]) as [H2 H1].
  split; [apply H2; reflexivity|].
  split; [apply H2; reflexivity | apply H1; reflexivity].
Defined.

(* ------------------------------------------------------------------------- *)
(** ** LnFac and poissonrInt on the state *)

Section LnFacState.

Context {A : Type} {RT : RealType A}.

Local Open Scope num_scope.

(** Once the table is built no call changes the static variables. *)
Lemma LnFac_initialized (st : LnFacStatic A) (n : Z) (v : A) (st' : LnFacStatic A) :
  initialized st = true -> LnFac n st = Ret (v, st') -> st' = st.
Proof.
  intros Hinit. unfold LnFac, ret, throw.
  destruct (n <? FAK_LEN)%Z; [|congruence].
  destruct (n <=? 1)%Z.
  - destruct (n <? 0)%Z; congruence.
  - rewrite Hinit. cbn [negb]. congruence.
Qed.

(** X13. The static table of LnFac: for n >= 0 and static variables as the
    calls leave them, the call returns; the value does not depend on what
    was called before (any such table gives the same value); the table is
    built by the first call with 2 <= n < FAK_LEN and never changed after
    that, nor by a call with another n; a second call with the same n
    returns the same value and leaves the state as it is. *)
Theorem LnFac_table_once (st : LnFacStatic A) (n : Z) :
  fac_ok st -> (0 <= n)%Z ->
  exists v st', LnFac n st = Ret (v, st') /\ fac_ok st' /\
    (initialized st = true -> st' = st) /\
    ((n <= 1 \/ FAK_LEN <= n)%Z -> st' = st) /\
    ((2 <= n < FAK_LEN)%Z -> initialized st' = true) /\
    LnFac n st' = Ret (v, st') /\
    (forall st2, fac_ok st2 -> exists st2', LnFac n st2 = Ret (v, st2')).
Proof.
  intros Hok Hn.
  destruct (Z.le_gt_cases n 1) as [Hle|Hgt].
  - exists (num_of_Z 0), st. rewrite LnFac_zero_one by lia.
    split; [reflexivity|]. split; [exact Hok|]. split; [reflexivity|].
    split; [reflexivity|]. split; [lia|]. split; [reflexivity|].
    intros st2 _. exists st2. apply LnFac_zero_one. lia.
  - destruct (Z.lt_ge_cases n FAK_LEN) as [Hlt|Hge].
    + destruct (LnFac_table st n Hok) as (st' & Hret & Hok' & Hinit'); [lia|].
      exists (sum_ln (Z.to_nat n)), st'.
      split; [exact Hret|]. split; [exact Hok'|].
      split; [intros Hinit; eapply LnFac_initialized; eassumption|].
      split; [lia|]. split; [auto|]. split.
      * destruct (LnFac_table st' n Hok') as (st'' & Hret' & _); [lia|].
        rewrite Hret'. f_equal. f_equal.
        eapply LnFac_initialized; eassumption.
      * intros st2 Hok2.
        destruct (LnFac_table st2 n Hok2) as (st2' & Hret2 & _); [lia|].
        eauto.
    + eexists _, st. rewrite LnFac_large by lia.
      split; [reflexivity|]. split; [exact Hok|]. split; [reflexivity|].
      split; [reflexivity|]. split; [lia|]. split; [reflexivity|].
      intros st2 _. exists st2. apply LnFac_large. lia.
Qed.

End LnFacState.

(** [LnFac ( 10 )] on binary64, first with the static variables as the
    program starts with them. *)
Lemma LnFac_table_once_witness :
  exists (v : float) (st' : LnFacStatic float),
    LnFac 10 LnFacStatic_init = Ret (v, st') /\
    initialized st' = true /\
    LnFac 10 st' = Ret (v, st').
Proof.
  destruct (LnFac_table_once (RT := Double.double) LnFacStatic_init 10
              fac_ok_init) as (v & st' & H1 & _ & _ & _ & H5 & H6 & _); [lia|].
  exists v, st'. split; [exact H1|]. split; [apply H5; unfold FAK_LEN; lia|].
  exact H6.
Defined.

Section PoissonState.

Context {A : Type} {RT : RealType A}.
Variable G : Type.
Variable getNextRnd : G -> Z * G.
Variable Sqr : A -> A.

Local Open Scope num_scope.

Local Abbreviation poisson := (poissonrInt G getNextRnd Sqr).

Lemma on_gen_Ret {X} (m : M G X) (s : G * LnFacStatic A) x s' :
  on_gen G m s = Ret (x, s') -> snd s' = snd s /\ m (fst s) = Ret (x, fst s').
Proof.
  unfold on_gen. destruct (m (fst s)) as [[x0 g']| |]; try discriminate.
  intros H. inversion H; subst. split; reflexivity.
Qed.

Lemma on_static_Ret {X} (m : M (LnFacStatic A) X) (s : G * LnFacStatic A) x s' :
  on_static G m s = Ret (x, s') -> fst s' = fst s /\ m (snd s) = Ret (x, snd s').
Proof.
  unfold on_static. destruct (m (snd s)) as [[x0 t']| |]; try discriminate.
  intros H. inversion H; subst. split; reflexivity.
Qed.

Context {RO : RealOrder A}.

Lemma poissonrInt_small_branch (fuel : nat) (Lambda : A)
    (s : G * LnFacStatic A) (k : Z) (s' : G * LnFacStatic A) :
  (Lambda <? num_lit 1e-6) = true ->
  poisson fuel Lambda s = Ret (k, s') ->
  (0 <= k <= 2)%Z /\ snd s' = snd s.
Proof.
  intros H6 H.
  assert (H17 : (Lambda <? num_of_Z 17) = true)
    by (eapply ltb_trans; [exact H6 | apply lit_1em6_17]).
  unfold poissonrInt in H. rewrite H17, H6 in H.
  destruct (Lambda <? num_of_Z 0); [discriminate|].
  destruct (Lambda =? num_of_Z 0).
  { unfold ret in H. inversion H; subst. split; [lia | reflexivity]. }
  apply bind_Ret in H. destruct H as (u & s1 & Hu & H).
  apply on_gen_Ret in Hu. destruct Hu as [Hs1 _].
  destruct (u >=? num_sqrt Lambda).
  { unfold ret in H. inversion H; subst. split; [lia | exact Hs1]. }
  apply bind_Ret in H. destruct H as (u' & s2 & Hu' & H).
  apply on_gen_Ret in Hu'. destruct Hu' as [Hs2 _].
  repeat match type of H with
         | (if ?c then _ else _) _ = _ => destruct c
         end;
    unfold ret in H; inversion H; subst; (split; [lia | congruence]).
Qed.

(** X14. A mean below 1e-6: whatever [poissonrInt] returns is 0, 1 or 2, and
    the static table of LnFac is left as it was. *)
Theorem poissonrInt_small_mean (fuel : nat) (Lambda : A)
    (s : G * LnFacStatic A) (k : Z) (s' : G * LnFacStatic A) :
  (Lambda <? num_lit 1e-6) = true ->
  poisson fuel Lambda s = Ret (k, s') ->
  (k = 0 \/ k = 1 \/ k = 2)%Z /\ snd s' = snd s.
Proof.
  intros H6 H. destruct (poissonrInt_small_branch fuel Lambda s k s' H6 H)
    as [Hk Hs].
  split; [lia | exact Hs].
Qed.

(** X15. Whatever [poissonrInt] returns, for any mean, is not negative; the
    static table of LnFac is left as the calls of LnFac expect it; and a
    mean below 17 leaves it untouched. *)
Theorem poissonrInt_result (fuel : nat) (Lambda : A)
    (s : G * LnFacStatic A) (k : Z) (s' : G * LnFacStatic A) :
  poisson fuel Lambda s = Ret (k, s') ->
  (0 <= k)%Z /\
  (fac_ok (snd s) -> fac_ok (snd s')) /\
  ((Lambda <? num_of_Z 17) = true -> snd s' = snd s).
Proof.
  intros H.
  destruct (Lambda <? num_of_Z 17) eqn:H17.
  - destruct (Lambda <? num_lit 1e-6) eqn:H6.
    + destruct (poissonrInt_small_branch fuel Lambda s k s' H6 H) as [Hk Hs].
      split; [lia|]. split; [now rewrite Hs | intros _; exact Hs].
    + unfold poissonrInt in H. rewrite H17, H6 in H.
      remember (Z.to_nat (bound + 1)) as rounds eqn:Hrounds.
      apply (forever_inv (fun st => snd st = snd s)) in H.
      * destruct H as (Hs & s0 & _ & Hb).
        apply bind_Ret in Hb. destruct Hb as (r & s1 & _ & Hb).
        unfold ret in Hb.
        assert (Hwalk : poisson_walk rounds Lambda r (num_exp (- Lambda)) 0
                        = Some k) by congruence.
        apply poisson_walk_range in Hwalk; [|unfold bound; lia].
        split; [lia|]. split; [now rewrite Hs | intros _; exact Hs].
      * intros st r st' Hst Hb.
        apply bind_Ret in Hb. destruct Hb as (u & s1 & Hu & Hb).
        apply on_gen_Ret in Hu. destruct Hu as [Hs1 _].
        unfold ret in Hb. inversion Hb; subst. congruence.
      * reflexivity.
  - split; [|split; [|discriminate]].
    + unfold poissonrInt in H. rewrite H17 in H.
      destruct (Lambda >? num_lit 2e9); [discriminate|].
      apply bind_Ret in H. destruct H as (lf0 & s1 & _ & H).
      apply forever_Ret in H. destruct H as (s0 & H).
      apply bind_Ret in H. destruct H as (u & s2 & _ & H).
      destruct (u =? num_of_Z 0); [discriminate|].
      apply bind_Ret in H. destruct H as (u' & s3 & _ & H).
      match type of H with
      | (if (?x <? _) || _ then _ else _) _ = _ =>
          destruct (x <? num_of_Z 0) eqn:Hx; cbn [orb] in H
      end; [discriminate|].
      match type of H with
      | (if ?c then _ else _) _ = _ => destruct c
      end; [discriminate|].
      apply bind_Ret in H. destruct H as (lfk & s4 & Hlf & H).
      apply on_static_Ret in Hlf. destruct Hlf as [_ Hlf].
      match type of Hlf with
      | LnFac ?k _ = _ =>
          assert (Hk : (0 <= k)%Z);
          [ destruct (Z.lt_ge_cases k 0) as [Hneg|Hge]; [|exact Hge];
            rewrite (LnFac_negative _ _ Hneg) in Hlf; discriminate |]
      end.
      repeat match type of H with
             | (if ?c then _ else _) _ = _ => destruct c
             end;
        unfold ret in H; inversion H; subst; try discriminate; exact Hk.
    + intros Hok. unfold poissonrInt in H. rewrite H17 in H.
      destruct (Lambda >? num_lit 2e9); [discriminate|].
      apply bind_Ret in H. destruct H as (lf0 & s1 & Hl & H).
      apply on_static_Ret in Hl. destruct Hl as [_ Hl].
      assert (Hok1 : fac_ok (snd s1))
        by (eapply LnFac_keeps_fac_ok; eassumption).
      apply (forever_inv (fun st => fac_ok (snd st))) in H.
      * exact (proj1 H).
      * clear. intros st r st' Hst H.
        apply bind_Ret in H. destruct H as (u & s2 & Hu & H).
        apply on_gen_Ret in Hu. destruct Hu as [Hs2 _].
        destruct (u =? num_of_Z 0).
        { unfold ret in H. inversion H; subst. now rewrite Hs2. }
        apply bind_Ret in H. destruct H as (u' & s3 & Hu' & H).
        apply on_gen_Ret in Hu'. destruct Hu' as [Hs3 _].
        match type of H with
        | (if ?c then _ else _) _ = _ => destruct c
        end.
        { unfold ret in H. inversion H; subst. now rewrite Hs3, Hs2. }
        apply bind_Ret in H. destruct H as (lfk & s4 & Hk & H).
        apply on_static_Ret in Hk. destruct Hk as [_ Hk].
        assert (Hok4 : fac_ok (snd s4)).
        { eapply LnFac_keeps_fac_ok; [|exact Hk]. now rewrite Hs3, Hs2. }
        repeat match type of H with
               | (if ?c then _ else _) _ = _ => destruct c
               end;
          unfold ret in H; inversion H; subst; exact Hok4.
      * exact Hok1.
Qed.

End PoissonState.

(** On binary64: a mean of 2^-30 with the draws 0 and 2^-32 (the raw words
    0, 0, 1, 0) gives 1. *)
Lemma poissonrInt_small_mean_witness :
  poissonrInt (RT := Double.double) Scripted.G Scripted.getNextRnd
    (fun x => x * x)%float 3 0x1p-30%float ([0; 0; 1; 0; 7], LnFacStatic_init)
  = Ret (1, ([7], LnFacStatic_init)) /\
  (1 = 0 \/ 1 = 1 \/ 1 = 2) /\
  snd ([7], LnFacStatic_init (A := float))
  = snd ([0; 0; 1; 0; 7], LnFacStatic_init (A := float)).
Proof.
  assert (Hrun : poissonrInt (RT := Double.double) Scripted.G Scripted.getNextRnd
                   (fun x => x * x)%float 3 0x1p-30%float
                   ([0; 0; 1; 0; 7], LnFacStatic_init)
                 = Ret (1, ([7], LnFacStatic_init)))
    by (vm_compute; reflexivity).
  split; [exact Hrun|].
  exact (poissonrInt_small_mean (RT := Double.double)
           Scripted.G Scripted.getNextRnd (fun x => x * x)%float 3 0x1p-30%float
           ([0; 0; 1; 0; 7], LnFacStatic_init) 1 ([7], LnFacStatic_init)
           eq_refl Hrun).
Defined.

(** On binary64: a mean of 20 with the draws 1/2 and 1/2 gives 20, and the
    call of [LnFac ( 20 )] has built the table. *)
Lemma poissonrInt_result_witness :
  exists s' : Scripted.G * LnFacStatic float,
    poissonrInt (RT := Double.double) Scripted.G Scripted.getNextRnd
      (fun x => x * x)%float 3 20%float
      ([2147483648; 0; 2147483648; 0; 7], LnFacStatic_init)
    = Ret (20, s') /\
    fst s' = [7] /\ initialized (snd s') = true /\ fac_ok (snd s').
Proof.
  assert (Hrun : exists s' : Scripted.G * LnFacStatic float,
             poissonrInt (RT := Double.double) Scripted.G Scripted.getNextRnd
               (fun x => x * x)%float 3 20%float
               ([2147483648; 0; 2147483648; 0; 7], LnFacStatic_init)
             = Ret (20, s') /\
             fst s' = [7] /\ initialized (snd s') = true).
  { vm_compute. eexists. split; [reflexivity|]. split; reflexivity. }
  destruct Hrun as (s' & Hrun & Hg & Hinit).
  exists s'. split; [exact Hrun|]. split; [exact Hg|]. split; [exact Hinit|].
  apply (proj1 (proj2 (poissonrInt_result (RT := Double.double)
                         Scripted.G Scripted.getNextRnd (fun x => x * x)%float
                         3 20%float _ 20 s' Hrun))).
  apply fac_ok_init.
Defined.
